(** * buf: the protoc-compatible flag resolution of [internal/buf/cmd/buf/internal/protoc/flags.go]

    A shallow embedding of [flagsBuilder] and its methods ([Normalize],
    [pluginFakeParse], [merge], [parsePluginNameToPluginInfo], [buildRec],
    [checkUnsupported], [Build]) together with the properties of the
    argument resolution that the specification states about them.

    Go strings are byte strings and are modelled as [string]; Go maps are
    [gmap]s, the visited set is a [gset]; [int] indices are [Z]. *)

From Stdlib Require Import ZArith Ascii String.
From stdpp Require Import base gmap strings list fin_maps fin_sets.

Local Open Scope Z_scope.

(** ** The Go standard library functions used by the source *)

Module GoStrings.

(** [s[i:j]] for [i <= j <= len(s)]. *)
Definition slice (s : string) (i j : nat) : string :=
  String.substring i (j - i) s.

(** [strings.HasPrefix]:
    [len(s) >= len(prefix) && s[:len(prefix)] == prefix]. *)
Definition HasPrefix (s prefix : string) : bool :=
  bool_decide (String.length prefix ≤ String.length s)%nat
  && bool_decide (slice s 0 (String.length prefix) = prefix).

(** [strings.TrimPrefix]. *)
Definition TrimPrefix (s prefix : string) : string :=
  if HasPrefix s prefix
  then slice s (String.length prefix) (String.length s)
  else s.

(** [strings.HasSuffix]:
    [len(s) >= len(suffix) && s[len(s)-len(suffix):] == suffix]. *)
Definition HasSuffix (s suffix : string) : bool :=
  bool_decide (String.length suffix ≤ String.length s)%nat
  && bool_decide
       (slice s (String.length s - String.length suffix) (String.length s)
        = suffix).

(** [strings.TrimSuffix]. *)
Definition TrimSuffix (s suffix : string) : string :=
  if HasSuffix s suffix
  then slice s 0 (String.length s - String.length suffix)
  else s.

(** [strings.Count(s, string(c))] for a one-byte separator. *)
Fixpoint Count (s : string) (c : ascii) : nat :=
  match s with
  | EmptyString => 0%nat
  | String d s' => ((if decide (d = c) then 1 else 0) + Count s' c)%nat
  end.

(** [strings.Split(s, string(c))] for a one-byte separator: the pieces
    between the separators, [Count s c + 1] of them. *)
Fixpoint Split (s : string) (c : ascii) : list string :=
  match s with
  | EmptyString => [EmptyString]
  | String d s' =>
      if decide (d = c) then EmptyString :: Split s' c
      else match Split s' c with
           | h :: t => String d h :: t
           | [] => [String d EmptyString]
           end
  end.

(** [strings.SplitN(s, string(c), 2)]: cut at the first separator only. *)
Fixpoint SplitN2 (s : string) (c : ascii) : list string :=
  match s with
  | EmptyString => [EmptyString]
  | String d s' =>
      if decide (d = c) then [EmptyString; s']
      else match SplitN2 s' c with
           | h :: t => String d h :: t
           | [] => [String d EmptyString]
           end
  end.

(** [strings.Replace(s, string(old), string(new), -1)] for one-byte
    [old] and [new]. *)
Fixpoint ReplaceAll (s : string) (old new : ascii) : string :=
  match s with
  | EmptyString => EmptyString
  | String d s' =>
      String (if decide (d = old) then new else d) (ReplaceAll s' old new)
  end.

(** The UTF-8 encodings of the code points for which [unicode.IsSpace]
    holds: tab, LF, VT, FF, CR, space, U+0085, U+00A0, U+1680,
    U+2000..U+200A, U+2028, U+2029, U+202F, U+205F, U+3000. *)
Definition spaceRunes : list string :=
  let b (n : nat) := ascii_of_nat n in
  let s1 x := String (b x) EmptyString in
  let s2 x y := String (b x) (s1 y) in
  let s3 x y z := String (b x) (s2 y z) in
  [ s1 9; s1 10; s1 11; s1 12; s1 13; s1 32;
    s2 194 133; s2 194 160; s3 225 154 128;
    s3 226 128 128; s3 226 128 129; s3 226 128 130; s3 226 128 131;
    s3 226 128 132; s3 226 128 133; s3 226 128 134; s3 226 128 135;
    s3 226 128 136; s3 226 128 137; s3 226 128 138;
    s3 226 128 168; s3 226 128 169; s3 226 128 175;
    s3 226 129 159; s3 227 128 128 ]%nat.

Definition startsWith (s p : string) : bool := String.prefix p s.

(** Strip the space runes found at the front, trying the encodings [rs]. *)
Fixpoint trimLeftRunes (rs : list string) (fuel : nat) (s : string) : string :=
  match fuel with
  | O => s
  | S n =>
      match List.find (startsWith s) rs with
      | Some r =>
          trimLeftRunes rs n (slice s (String.length r) (String.length s))
      | None => s
      end
  end.

(** [strings.TrimSpace]: leading and trailing white space removed. *)
Definition TrimSpace (s : string) : string :=
  let l := trimLeftRunes spaceRunes (String.length s) s in
  String.rev
    (trimLeftRunes (String.rev <$> spaceRunes) (String.length l) (String.rev l)).

End GoStrings.

Module GoFilepath.

(** The loop of [filepath.Base] that strips trailing separators. *)
Fixpoint stripTrailingSlashes (s : string) : string :=
  match s with
  | EmptyString => EmptyString
  | String c s' =>
      let r := stripTrailingSlashes s' in
      if decide (c = "/"%char) then
        if decide (r = EmptyString) then EmptyString else String c r
      else String c r
  end.

(** [filepath.Base] on a system whose separator is [/]: the last element
    of the path, ["."] for the empty path, ["/"] for a path of
    separators only. *)
Definition Base (path : string) : string :=
  if decide (path = EmptyString) then "."
  else
    let p := stripTrailingSlashes path in
    let e := List.last (GoStrings.Split p "/"%char) EmptyString in
    if decide (e = EmptyString) then "/" else e.

End GoFilepath.

Import GoStrings GoFilepath.

(** ** Data model *)

(** The flag names the source compares against. *)
Definition outputFlagName : string := "descriptor_set_out".
Definition pluginFakeFlagName : string := "protoc_plugin_fake".

Definition defaultIncludeDirPaths : list string := ["."].
Definition defaultErrorFormat : string := "gcc".

(** [type flags struct]. *)
Record flags : Type := mkFlags {
  IncludeDirPaths : list string;
  IncludeImports : bool;
  IncludeSourceInfo : bool;
  PrintFreeFieldNumbers : bool;
  Output : string;
  ErrorFormat : string;
}.

(** Modelled from the spec: the struct [pluginInfo] and its constructor
    [newPluginInfo] are declared outside [flags.go]. The specification
    gives a plugin's invocation info an output location, an options string
    and an executable path; the source reads and writes them as the string
    fields [Out], [Opt] and [Path] and tests them against the empty
    string, so a fresh info has all three empty. *)
Record pluginInfo : Type := mkPluginInfo {
  Out : string;
  Opt : string;
  Path : string;
}.

Definition newPluginInfo : pluginInfo := mkPluginInfo "" "" "".

(** [type pluginValue struct]: indices into [pluginFake], [-1] when unset. *)
Record pluginValue : Type := mkPluginValue {
  OutIndex : Z;
  OptIndex : Z;
}.

Definition newPluginValue : pluginValue := mkPluginValue (-1) (-1).

(** [type flagsBuilder struct]. *)
Record flagsBuilder : Type := mkFlagsBuilder {
  fbFlags : flags;
  PluginPathValues : list string;
  Encode : string;
  Decode : string;
  DecodeRaw : bool;
  DescriptorSetIn : list string;
  pluginFake : list string;
  pluginNameToValue : gmap string pluginValue;
}.

Definition newFlagsBuilder : flagsBuilder :=
  mkFlagsBuilder (mkFlags [] false false false "" "") [] "" "" false [] [] ∅.

(** [type env struct]. *)
Record env : Type := mkEnv {
  envFlags : flags;
  PluginNameToPluginInfo : gmap string pluginInfo;
  FilePaths : list string;
}.

(** The errors the source returns. Their constructors live outside
    [flags.go]; each one is named after the call that builds it and keeps
    that call's arguments. [ReadFileError] stands for the error of
    [ioutil.ReadFile], [FlagParseError] for the error of [pflag]'s
    [Parse]. *)
Inductive error : Type :=
  | errArgEmpty
  | errNoInputFiles
  | RecursiveReferenceError (flagFilePath : string)
  | OutMultipleColonsError (pluginName out : string)
  | DuplicateOutError (pluginName : string)
  | DuplicateOptError (pluginName : string)
  | PluginPathValueEmptyError
  | PluginPathValueInvalidError (pluginPathValue : string)
  | PluginPathNameInvalidPrefixError (pluginName : string)
  | DuplicatePluginPathError (pluginName : string)
  | EncodeNotSupportedError
  | DecodeNotSupportedError
  | DecodeRawNotSupportedError
  | DescriptorSetInNotSupportedError
  | CannotSpecifyOptWithoutOutError (pluginName : string)
  | CannotSpecifyPathWithoutOutError (pluginName : string)
  | ReadFileError (path : string)
  | FlagParseError (msg : string).

(** What a call produces: a value, an [error], a run-time panic (a slice
    indexed out of range), or [OutOfFuel] when the recursion bound of
    [buildRec] below is used up ([Build] never is, see [Build_total]). *)
Inductive result (A : Type) : Type :=
  | Ok (a : A)
  | Err (e : error)
  | Panic
  | OutOfFuel.
Arguments Ok {A} a.
Arguments Err {A} e.
Arguments Panic {A}.
Arguments OutOfFuel {A}.

Global Instance result_ret : MRet result := λ A a, Ok a.
Global Instance result_bind : MBind result := λ A B k m,
  match m with
  | Ok a => k a
  | Err e => Err e
  | Panic => Panic
  | OutOfFuel => OutOfFuel
  end.

(** A [for _, a := range l] loop whose body may return early. *)
Fixpoint forEach {A S : Type} (body : A → S → result S) (l : list A) (s : S)
  : result S :=
  match l with
  | [] => Ok s
  | a :: l' => s' ← body a s; forEach body l' s'
  end.

(** Field updates. *)
Definition setOut (v : string) (p : pluginInfo) : pluginInfo :=
  mkPluginInfo v (Opt p) (Path p).
Definition setOpt (v : string) (p : pluginInfo) : pluginInfo :=
  mkPluginInfo (Out p) v (Path p).
Definition setPath (v : string) (p : pluginInfo) : pluginInfo :=
  mkPluginInfo (Out p) (Opt p) v.

Definition setFlags (fl : flags) (f : flagsBuilder) : flagsBuilder :=
  mkFlagsBuilder fl (PluginPathValues f) (Encode f) (Decode f) (DecodeRaw f)
    (DescriptorSetIn f) (pluginFake f) (pluginNameToValue f).

(** [pluginInfo, ok := m[name]; if !ok { pluginInfo = newPluginInfo(); ... }]. *)
Definition infoOf (m : gmap string pluginInfo) (name : string) : pluginInfo :=
  default newPluginInfo (m !! name).

(** ** [pluginFakeParse] and [Normalize] *)

Definition pluginFakeParse (name suffix : string) (isOut : bool)
    (f : flagsBuilder) : flagsBuilder :=
  let pluginName := TrimSuffix name suffix in
  let pv := default newPluginValue (pluginNameToValue f !! pluginName) in
  let index := Z.of_nat (length (pluginFake f)) in
  let pv' := if isOut then mkPluginValue index (OptIndex pv)
             else mkPluginValue (OutIndex pv) index in
  mkFlagsBuilder (fbFlags f) (PluginPathValues f) (Encode f) (Decode f)
    (DecodeRaw f) (DescriptorSetIn f) (pluginFake f)
    (<[pluginName := pv']> (pluginNameToValue f)).

(** [Normalize] returns the name the flag is bound under, and the builder
    with the occurrence recorded. *)
Definition Normalize (name : string) (f : flagsBuilder) : string * flagsBuilder :=
  if bool_decide (name ≠ "descriptor_set_out") && HasSuffix name "_out" then
    (pluginFakeFlagName, pluginFakeParse name "_out" true f)
  else if HasSuffix name "_opt" then
    (pluginFakeFlagName, pluginFakeParse name "_opt" false f)
  else (ReplaceAll name "-"%char "_"%char, f).

(** ** [merge] *)

Definition merge (f sub : flagsBuilder) : flagsBuilder :=
  let ff := fbFlags f in
  let sf := fbFlags sub in
  mkFlagsBuilder
    (mkFlags
       (IncludeDirPaths ff ++ IncludeDirPaths sf)
       (if IncludeImports sf then true else IncludeImports ff)
       (if IncludeSourceInfo sf then true else IncludeSourceInfo ff)
       (if PrintFreeFieldNumbers sf then true else PrintFreeFieldNumbers ff)
       (if decide (Output sf ≠ "") then Output sf else Output ff)
       (if decide (ErrorFormat sf ≠ "") then ErrorFormat sf else ErrorFormat ff))
    (PluginPathValues f ++ PluginPathValues sub)
    (if decide (Encode sub ≠ "") then Encode sub else Encode f)
    (if decide (Decode sub ≠ "") then Decode sub else Decode f)
    (if DecodeRaw sub then true else DecodeRaw f)
    (DescriptorSetIn f ++ DescriptorSetIn sub)
    (pluginFake f)
    (pluginNameToValue f).

(** ** [parsePluginNameToPluginInfo] *)

(** The body of the loop over [f.pluginNameToValue]. *)
Definition pluginValueStep (f : flagsBuilder) (pluginName : string)
    (pv : pluginValue) (infos : gmap string pluginInfo)
  : result (gmap string pluginInfo) :=
  infos1 ←
    (if decide (0 ≤ OutIndex pv) then
       match pluginFake f !! Z.to_nat (OutIndex pv) with
       | None => Panic
       | Some out =>
           '(out', opt) ←
             match Split out ":"%char with
             | [_] => Ok (out, "")
             | [s0; s1] => Ok (s1, s0)
             | _ => Err (OutMultipleColonsError pluginName out)
             end;
           let pluginInfo := infoOf infos pluginName in
           if decide (Out pluginInfo ≠ "") then
             Err (DuplicateOutError pluginName)
           else
             let pluginInfo := setOut out' pluginInfo in
             if decide (opt ≠ "") then
               if decide (Opt pluginInfo ≠ "") then
                 Err (DuplicateOptError pluginName)
               else Ok (<[pluginName := setOpt opt pluginInfo]> infos)
             else Ok (<[pluginName := pluginInfo]> infos)
       end
     else Ok infos);
  if decide (0 ≤ OptIndex pv) then
    let pluginInfo := infoOf infos1 pluginName in
    if decide (Opt pluginInfo ≠ "") then Err (DuplicateOptError pluginName)
    else
      match pluginFake f !! Z.to_nat (OptIndex pv) with
      | None => Panic
      | Some v => Ok (<[pluginName := setOpt v pluginInfo]> infos1)
      end
  else Ok infos1.

(** The body of the loop over [f.PluginPathValues]. *)
Definition pluginPathValueStep (pluginPathValue : string)
    (infos : gmap string pluginInfo) : result (gmap string pluginInfo) :=
  '(pluginName, pluginPath) ←
    match SplitN2 pluginPathValue "="%char with
    | [] => Err PluginPathValueEmptyError
    | [s0] => Ok (Base s0, s0)
    | [s0; s1] => Ok (s0, s1)
    | _ => Err (PluginPathValueInvalidError pluginPathValue)
    end;
  if negb (HasPrefix pluginName "protoc-gen-") then
    Err (PluginPathNameInvalidPrefixError pluginName)
  else
    let pluginName := TrimPrefix pluginName "protoc-gen-" in
    let pluginInfo := infoOf infos pluginName in
    if decide (Path pluginInfo ≠ "") then
      Err (DuplicatePluginPathError pluginName)
    else Ok (<[pluginName := setPath pluginPath pluginInfo]> infos).

(** ** [checkUnsupported] *)

Definition checkUnsupported (f : flagsBuilder) : result unit :=
  if decide (Encode f ≠ "") then Err EncodeNotSupportedError
  else if decide (Decode f ≠ "") then Err DecodeNotSupportedError
  else if DecodeRaw f then Err DecodeRawNotSupportedError
  else if decide (0 < length (DescriptorSetIn f))%nat then
    Err DescriptorSetInNotSupportedError
  else Ok ().

(** The body of the loop of [Build] over the plugin table. *)
Definition checkPluginInfo (entry : string * pluginInfo) (_ : unit)
  : result unit :=
  let '(pluginName, pluginInfo) := entry in
  if decide (Out pluginInfo = "" ∧ Opt pluginInfo ≠ "") then
    Err (CannotSpecifyOptWithoutOutError pluginName)
  else if decide (Out pluginInfo = "" ∧ Path pluginInfo ≠ "") then
    Err (CannotSpecifyPathWithoutOutError pluginName)
  else Ok ().

(** The lines of an argument file that [buildRec] hands to the flag set:
    split on newlines, trimmed, the empty ones dropped. *)
Definition flagFileArgs (data : string) : list string :=
  List.filter (λ a, bool_decide (a ≠ ""))
    (TrimSpace <$> Split data (ascii_of_nat 10)).

(** The type of what [buildRec] returns on success: the input paths, the
    receiver after its merges, and the two maps shared by the whole chain. *)
Abbreviation walk :=
  (list string * flagsBuilder * gmap string pluginInfo * gset string)%type.

(** An entry that has options or a path but no output location. *)
Definition lacksOut (info : pluginInfo) : Prop :=
  Out info = "" ∧ (Opt info ≠ "" ∨ Path info ≠ "").

(** ** [buildRec] and [Build] *)

Section Resolution.

(** The order in which a [range] over a Go map visits its entries: any
    enumeration of the entries, chosen by the run time. *)
Variable rangeOrder : ∀ V : Type, gmap string V → list (string * V).

(** The files [ioutil.ReadFile] can read, by path; reading any other
    path is an error. *)
Variable files : gmap string string.

(** What [buildRec] does with the lines of an argument file before it
    recurses: a fresh builder is bound to a fresh [pflag] flag set named
    after the file, with the builder's [Normalize] installed, and the
    lines are parsed. The outcome is the flag library's error, or the
    populated builder with the positional arguments left over
    ([flagSet.Args()]). *)
Variable flagSetParse :
  string → list string → error + (flagsBuilder * list string).

Definition parsePluginNameToPluginInfo (f : flagsBuilder)
    (infos : gmap string pluginInfo) : result (gmap string pluginInfo) :=
  infos1 ← forEach (λ '(pluginName, pv), pluginValueStep f pluginName pv)
             (rangeOrder _ (pluginNameToValue f)) infos;
  forEach pluginPathValueStep (PluginPathValues f) infos1.

(** The loop of [buildRec] over [args]; [rec] is the recursive call made
    on the contents of an argument file. *)
Fixpoint buildLoop
    (rec : flagsBuilder → list string → gmap string pluginInfo →
           gset string → result walk)
    (args filePaths : list string) (f : flagsBuilder)
    (infos : gmap string pluginInfo) (seen : gset string) : result walk :=
  match args with
  | [] => Ok (filePaths, f, infos, seen)
  | arg :: rest =>
      match arg with
      | EmptyString => Err errArgEmpty
      | String c flagFilePath =>
          if decide (c ≠ "@"%char) then
            buildLoop rec rest (filePaths ++ [arg]) f infos seen
          else if decide (flagFilePath ∈ seen) then
            Err (RecursiveReferenceError flagFilePath)
          else
            let seen1 := {[flagFilePath]} ∪ seen in
            match files !! flagFilePath with
            | None => Err (ReadFileError flagFilePath)
            | Some data =>
                match flagSetParse flagFilePath (flagFileArgs data) with
                | inl err => Err err
                | inr (sub, subArgs) =>
                    '(subFilePaths, sub', infos', seen') ←
                      rec sub subArgs infos seen1;
                    buildLoop rec rest (filePaths ++ subFilePaths)
                      (merge f sub') infos' seen'
                end
            end
      end
  end.

(** [buildRec]; [fuel] bounds the depth of nested argument files. *)
Fixpoint buildRec (fuel : nat) (f : flagsBuilder) (args : list string)
    (infos : gmap string pluginInfo) (seen : gset string) : result walk :=
  match fuel with
  | O => OutOfFuel
  | S fuel' =>
      infos1 ← parsePluginNameToPluginInfo f infos;
      buildLoop (buildRec fuel') args [] f infos1 seen
  end.

(** The defaults [Build] fills in. *)
Definition withDefaults (fl : flags) : flags :=
  let fl1 :=
    if decide (length (IncludeDirPaths fl) = 0%nat) then
      mkFlags defaultIncludeDirPaths (IncludeImports fl)
        (IncludeSourceInfo fl) (PrintFreeFieldNumbers fl) (Output fl)
        (ErrorFormat fl)
    else fl in
  if decide (ErrorFormat fl1 = "") then
    mkFlags (IncludeDirPaths fl1) (IncludeImports fl1)
      (IncludeSourceInfo fl1) (PrintFreeFieldNumbers fl1) (Output fl1)
      defaultErrorFormat
  else fl1.

(** [Build]. No file has been visited at the start, so a nesting deeper
    than the number of files meets a visited path first. *)
Definition Build (f : flagsBuilder) (args : list string) : result env :=
  '(filePaths, f1, infos, _) ← buildRec (S (size files)) f args ∅ ∅;
  _ ← checkUnsupported f1;
  _ ← forEach checkPluginInfo (rangeOrder _ infos) ();
  let fl := withDefaults (fbFlags f1) in
  if decide (length filePaths = 0%nat) then Err errNoInputFiles
  else Ok (mkEnv fl infos filePaths).

End Resolution.

(** The order in which [map_to_list] lists the entries: one of the orders
    a [range] may take. *)
Definition listOrder (V : Type) (m : gmap string V) : list (string * V) :=
  map_to_list m.

(** ** A flag set for the examples

    A model of the part of [pflag] that the examples below exercise: long
    flags [--name=value] and [--name value], boolean flags without a
    value, the terminator [--], and positional arguments interspersed with
    flags. Slice flags read their value as comma-separated fields.
    Shorthand flags, quoted fields and values with a line break are
    outside this model and reported as a parse error. The theorems on the
    expansion do not depend on it: they hold for every [flagSetParse]. *)
Module FlagSet.

Definition ParseBool (v : string) : option bool :=
  if bool_decide (v ∈ ["1"; "t"; "T"; "TRUE"; "true"; "True"]) then Some true
  else if bool_decide (v ∈ ["0"; "f"; "F"; "FALSE"; "false"; "False"])
  then Some false
  else None.

(** The characters on which [encoding/csv] does more than split at the
    commas: the double quote, the line feed and the carriage return. *)
Definition csvSpecial : list ascii := ascii_of_nat <$> [34; 10; 13]%nat.

(** [readAsCSV]: the empty value has no field; any other value is read as
    one CSV record, whose fields are the parts between the commas when the
    value has none of the characters of [csvSpecial]. *)
Definition readAsCSV (v : string) : result (list string) :=
  if bool_decide (v = "") then Ok []
  else if bool_decide (Forall (λ c, Count v c = 0%nat) csvSpecial)
  then Ok (Split v ","%char)
  else Err (FlagParseError "quoted field or line break").

Definition boolFlags : list string :=
  ["include_imports"; "include_source_info"; "print_free_field_numbers";
   "decode_raw"].

(** The names [Bind] declares. *)
Definition boundFlags : list string :=
  boolFlags ++
  ["proto_path"; "descriptor_set_out"; "error_format"; "plugin";
   pluginFakeFlagName; "encode"; "decode"; "descriptor_set_in"].

Definition setBool (name : string) (b : bool) (f : flagsBuilder)
  : flagsBuilder :=
  let fl := fbFlags f in
  if bool_decide (name = "include_imports") then
    setFlags (mkFlags (IncludeDirPaths fl) b (IncludeSourceInfo fl)
                (PrintFreeFieldNumbers fl) (Output fl) (ErrorFormat fl)) f
  else if bool_decide (name = "include_source_info") then
    setFlags (mkFlags (IncludeDirPaths fl) (IncludeImports fl) b
                (PrintFreeFieldNumbers fl) (Output fl) (ErrorFormat fl)) f
  else if bool_decide (name = "print_free_field_numbers") then
    setFlags (mkFlags (IncludeDirPaths fl) (IncludeImports fl)
                (IncludeSourceInfo fl) b (Output fl) (ErrorFormat fl)) f
  else
    mkFlagsBuilder fl (PluginPathValues f) (Encode f) (Decode f) b
      (DescriptorSetIn f) (pluginFake f) (pluginNameToValue f).

(** [flagSet.Set] on the flags that [Bind] declares. The first [Set] of a
    slice flag replaces its default and the later ones append; [Bind]
    resets every slice to its default [nil], so on a bound builder both
    are an append. *)
Definition setFlag (name value : string) (f : flagsBuilder)
  : result flagsBuilder :=
  let fl := fbFlags f in
  if bool_decide (name ∈ boolFlags) then
    match ParseBool value with
    | Some b => Ok (setBool name b f)
    | None => Err (FlagParseError "invalid boolean")
    end
  else if bool_decide (name = "proto_path") then
    vs ← readAsCSV value;
    Ok (setFlags (mkFlags (IncludeDirPaths fl ++ vs) (IncludeImports fl)
                    (IncludeSourceInfo fl) (PrintFreeFieldNumbers fl)
                    (Output fl) (ErrorFormat fl)) f)
  else if bool_decide (name = "descriptor_set_out") then
    Ok (setFlags (mkFlags (IncludeDirPaths fl) (IncludeImports fl)
                    (IncludeSourceInfo fl) (PrintFreeFieldNumbers fl)
                    value (ErrorFormat fl)) f)
  else if bool_decide (name = "error_format") then
    Ok (setFlags (mkFlags (IncludeDirPaths fl) (IncludeImports fl)
                    (IncludeSourceInfo fl) (PrintFreeFieldNumbers fl)
                    (Output fl) value) f)
  else if bool_decide (name = "plugin") then
    vs ← readAsCSV value;
    Ok (mkFlagsBuilder fl (PluginPathValues f ++ vs) (Encode f) (Decode f)
          (DecodeRaw f) (DescriptorSetIn f) (pluginFake f)
          (pluginNameToValue f))
  else if bool_decide (name = pluginFakeFlagName) then
    vs ← readAsCSV value;
    Ok (mkFlagsBuilder fl (PluginPathValues f) (Encode f) (Decode f)
          (DecodeRaw f) (DescriptorSetIn f) (pluginFake f ++ vs)
          (pluginNameToValue f))
  else if bool_decide (name = "encode") then
    Ok (mkFlagsBuilder fl (PluginPathValues f) value (Decode f)
          (DecodeRaw f) (DescriptorSetIn f) (pluginFake f)
          (pluginNameToValue f))
  else if bool_decide (name = "decode") then
    Ok (mkFlagsBuilder fl (PluginPathValues f) (Encode f) value
          (DecodeRaw f) (DescriptorSetIn f) (pluginFake f)
          (pluginNameToValue f))
  else if bool_decide (name = "descriptor_set_in") then
    vs ← readAsCSV value;
    Ok (mkFlagsBuilder fl (PluginPathValues f) (Encode f) (Decode f)
          (DecodeRaw f) (DescriptorSetIn f ++ vs) (pluginFake f)
          (pluginNameToValue f))
  else Err (FlagParseError "unknown flag").

Fixpoint parseArgs (args : list string) (f : flagsBuilder)
    (positional : list string) : result (flagsBuilder * list string) :=
  match args with
  | [] => Ok (f, positional)
  | s :: rest =>
      match s with
      | String "-" (String "-" name) =>
          if bool_decide (name = "") then Ok (f, positional ++ rest)
          else if HasPrefix name "-" || HasPrefix name "=" then
            Err (FlagParseError "bad flag syntax")
          else
            match SplitN2 name "="%char with
            | [n; v] =>
                let '(nn, f1) := Normalize n f in
                f2 ← setFlag nn v f1; parseArgs rest f2 positional
            | _ =>
                let '(nn, f1) := Normalize name f in
                if negb (bool_decide (nn ∈ boundFlags)) then
                  Err (FlagParseError "unknown flag")
                else if bool_decide (nn ∈ boolFlags) then
                  f2 ← setFlag nn "true" f1; parseArgs rest f2 positional
                else
                  match rest with
                  | v :: rest' =>
                      f2 ← setFlag nn v f1; parseArgs rest' f2 positional
                  | [] => Err (FlagParseError "flag needs an argument")
                  end
            end
      | String "-" (String _ _) =>
          Err (FlagParseError "shorthand flag")
      | _ => parseArgs rest f (positional ++ [s])
      end
  end.

(** The parse of a whole argument vector with a fresh builder. *)
Definition parse (args : list string) : result (flagsBuilder * list string) :=
  parseArgs args newFlagsBuilder [].

(** The instance used for the contents of an argument file. *)
Definition flagSetParse (flagFilePath : string) (args : list string)
  : error + (flagsBuilder * list string) :=
  match parse args with
  | Ok r => inr r
  | Err e => inl e
  | _ => inl (FlagParseError "flag set")
  end.

(** The whole command: the top-level parse followed by [Build], with map
    entries visited in [listOrder]. *)
Definition run (files : gmap string string) (argv : list string)
  : result env :=
  '(f, args) ← parse argv;
  Build listOrder files flagSetParse f args.

End FlagSet.

(** The line feed that ends a line of an argument file. *)
Definition lf : string := String (ascii_of_nat 10) "".

(** ** Plugin flags as the flag set delivers them

    One occurrence [--<name>=<value>] of a flag: the flag set normalizes
    the name, which records the occurrence of a plugin flag in the builder,
    and then sets the value on the flag bound under the name it got back.
    For a plugin flag that is the string slice [pluginFake], which receives
    the comma-separated fields of the value, none for the empty value. *)
Definition pluginFlag (name value : string) (f : flagsBuilder)
  : result flagsBuilder :=
  let '(n, f1) := Normalize name f in FlagSet.setFlag n value f1.

(** The occurrences [--<name>=<value>] of [flags], handled in order. *)
Definition deliver (flags : list (string * string)) (f : flagsBuilder)
  : result flagsBuilder :=
  forEach (λ '(name, value), pluginFlag name value) flags f.

(** A value that [readAsCSV] returns as the one field it is: not empty,
    without a comma and without a character of [csvSpecial]. *)
Definition singleField (v : string) : Prop :=
  v ≠ "" ∧ Count v ","%char = 0%nat
  ∧ Forall (λ c, Count v c = 0%nat) FlagSet.csvSpecial.

(** A builder that only carries explicit plugin paths. *)
Definition withPluginPaths (vs : list string) : flagsBuilder :=
  mkFlagsBuilder (fbFlags newFlagsBuilder) vs "" "" false [] [] ∅.

(** A builder that only carries plugin directives: the values stored and
    the indices recorded. *)
Definition withDirectives (fake : list string)
    (m : gmap string pluginValue) : flagsBuilder :=
  mkFlagsBuilder (fbFlags newFlagsBuilder) [] "" "" false [] fake m.

(** ** The expansion as the specification words it *)

(** A token that is neither empty nor an argument-file reference. *)
Definition isPlain (arg : string) : bool :=
  match arg with
  | EmptyString => false
  | String c _ => bool_decide (c ≠ "@"%char)
  end.

Section Expansion.

Variable files : gmap string string.
Variable flagSetParse :
  string → list string → error + (flagsBuilder * list string).

(** The builder and the positional tokens of an argument file. *)
Definition fileContents (path : string)
  : option (flagsBuilder * list string) :=
  match files !! path with
  | Some data =>
      match flagSetParse path (flagFileArgs data) with
      | inr r => Some r
      | inl _ => None
      end
  | None => None
  end.

(** The resolved input paths in the specification's words: the
    positional tokens in depth-first, left-to-right order, each [@file]
    token replaced in place by the paths its expansion contributes.
    [depth] bounds the nesting. *)
Fixpoint inputPaths (depth : nat) (args : list string) : list string :=
  match depth with
  | O => []
  | S d =>
      flat_map (λ arg,
        match arg with
        | String "@" path =>
            match fileContents path with
            | Some (_, subArgs) => inputPaths d subArgs
            | None => []
            end
        | _ => [arg]
        end) args
  end.

(** The argument-file paths referenced anywhere in the expansion. *)
Fixpoint referencedPaths (depth : nat) (args : list string) : gset string :=
  match depth with
  | O => ∅
  | S d =>
      ⋃ ((λ arg,
        match arg with
        | String "@" path =>
            {[path]} ∪
            match fileContents path with
            | Some (_, subArgs) => referencedPaths d subArgs
            | None => ∅
            end
        | _ => ∅
        end) <$> args)
  end.

(** The builders of the argument files of the expansion, in the order
    the files are entered. *)
Fixpoint chainBuilders (depth : nat) (args : list string)
  : list flagsBuilder :=
  match depth with
  | O => []
  | S d =>
      flat_map (λ arg,
        match arg with
        | String "@" path =>
            match fileContents path with
            | Some (sub, subArgs) => sub :: chainBuilders d subArgs
            | None => []
            end
        | _ => []
        end) args
  end.

(** A chain of references: [args] holds a reference to the first path of
    [c], the positional tokens of each file of [c] hold a reference to the
    next path, and those of the last file hold a reference to [q]. When
    [q] is one of [c], the file [q] references itself through the files
    after it. *)
Fixpoint refChain (c : list string) (q : string) (args : list string) : Prop :=
  match c with
  | [] => String "@" q ∈ args
  | p :: c' =>
      String "@" p ∈ args
      ∧ ∃ sub subArgs,
          fileContents p = Some (sub, subArgs) ∧ refChain c' q subArgs
  end.

End Expansion.

(** What a successful walk returns, in terms of the expansion as the
    specification words it: [paths0] are the paths collected before, [f]
    the receiver and [seen] the visited set at the start. *)
Definition walkSpec (files : gmap string string)
    (flagSetParse : string → list string → error + (flagsBuilder * list string))
    (d : nat) (paths0 : list string) (f : flagsBuilder)
    (args : list string) (seen : gset string) (w : walk) : Prop :=
  let '(paths, f1, _, seen1) := w in
  paths = paths0 ++ inputPaths files flagSetParse d args
  ∧ seen1 = seen ∪ referencedPaths files flagSetParse d args
  ∧ f1 = foldl merge f (chainBuilders files flagSetParse d args).

(** The walk of [buildRec] goes down the chain [c] and arrives at a
    reference to [q]: at each level the receiver's directives resolve and
    the tokens [pre] before the reference expand without error, the file
    referenced next is not visited yet, it is read and parsed, and the walk
    of its tokens goes down the rest of the chain; at the end of the chain
    the tokens before the reference to [q] expand without error. *)
Fixpoint entersChain
    (rangeOrder : ∀ V : Type, gmap string V → list (string * V))
    (files : gmap string string)
    (flagSetParse : string → list string → error + (flagsBuilder * list string))
    (fuel : nat) (c : list string) (q : string) (f : flagsBuilder)
    (args : list string) (infos : gmap string pluginInfo) (seen : gset string)
  : Prop :=
  ∃ (pre post : list string) (w : walk),
    buildRec rangeOrder files flagSetParse fuel f pre infos seen = Ok w
    ∧ match c with
      | [] => args = pre ++ String "@" q :: post
      | p :: c' =>
          args = pre ++ String "@" p :: post ∧ (p ∉ w.2)
          ∧ ∃ sub subArgs,
              fileContents files flagSetParse p = Some (sub, subArgs)
              ∧ entersChain rangeOrder files flagSetParse (pred fuel) c' q
                  sub subArgs w.1.2 ({[p]} ∪ w.2)
      end.

(** ** Notions used to state further properties of the code *)

(** What [pluginValueStep] does to the entry [info] of its plugin: the new
    entry, or [None] when the plugin has neither index. *)
Definition directiveInfo (f : flagsBuilder) (pluginName : string)
    (pv : pluginValue) (info : pluginInfo) : result (option pluginInfo) :=
  r1 ←
    (if decide (0 ≤ OutIndex pv) then
       match pluginFake f !! Z.to_nat (OutIndex pv) with
       | None => Panic
       | Some out =>
           '(out', opt) ←
             match Split out ":"%char with
             | [_] => Ok (out, "")
             | [s0; s1] => Ok (s1, s0)
             | _ => Err (OutMultipleColonsError pluginName out)
             end;
           if decide (Out info ≠ "") then Err (DuplicateOutError pluginName)
           else
             let info1 := setOut out' info in
             if decide (opt ≠ "") then
               if decide (Opt info1 ≠ "") then
                 Err (DuplicateOptError pluginName)
               else Ok (Some (setOpt opt info1))
             else Ok (Some info1)
       end
     else Ok None);
  if decide (0 ≤ OptIndex pv) then
    let info1 := default info r1 in
    if decide (Opt info1 ≠ "") then Err (DuplicateOptError pluginName)
    else
      match pluginFake f !! Z.to_nat (OptIndex pv) with
      | None => Panic
      | Some v => Ok (Some (setOpt v info1))
      end
  else Ok r1.

(** Every index recorded for a plugin points into [pluginFake]. *)
Definition wellIndexed (f : flagsBuilder) : Prop :=
  ∀ name pv, pluginNameToValue f !! name = Some pv →
    OutIndex pv < Z.of_nat (length (pluginFake f))
    ∧ OptIndex pv < Z.of_nat (length (pluginFake f)).

(** A builder on which [checkUnsupported] fails. *)
Definition usesUnsupported (b : flagsBuilder) : Prop :=
  Encode b ≠ "" ∨ Decode b ≠ "" ∨ DecodeRaw b = true ∨ DescriptorSetIn b ≠ [].

(** White space bytes of the ASCII range: tab, LF, VT, FF, CR, space. *)
Definition isAsciiSpace (c : ascii) : bool :=
  bool_decide (c ∈ (ascii_of_nat <$> [9; 10; 11; 12; 13; 32]%nat)).

Fixpoint allChars (P : ascii → bool) (s : string) : bool :=
  match s with
  | EmptyString => true
  | String c s' => P c && allChars P s'
  end.

(** Another order a [range] may take: [listOrder] backwards. *)
Definition reverseOrder (V : Type) (m : gmap string V) : list (string * V) :=
  reverse (map_to_list m).

(** * Properties *)

(** ** Examples of the library functions and of a whole run *)

Example TrimSpace_ex :
  TrimSpace (String (ascii_of_nat 9) " a b  ") = "a b".
Proof. vm_compute. reflexivity. Qed.

Example Base_ex1 : Base "path/to/protoc-gen-foo" = "protoc-gen-foo".
Proof. vm_compute. reflexivity. Qed.

Example Base_ex2 : Base "a/b//" = "b" ∧ Base "///" = "/" ∧ Base "" = ".".
Proof. vm_compute. done. Qed.

Example Split_ex : Split "a:b:c" ":"%char = ["a"; "b"; "c"]
                   ∧ Split "" ":"%char = [""] ∧ Split "a:" ":"%char = ["a"; ""].
Proof. vm_compute. done. Qed.

Example SplitN2_ex : SplitN2 "a=b=c" "="%char = ["a"; "b=c"]
                     ∧ SplitN2 "abc" "="%char = ["abc"].
Proof. vm_compute. done. Qed.

Example HasSuffix_ex : HasSuffix "go_out" "_out" = true
                       ∧ TrimSuffix "go_out" "_out" = "go"
                       ∧ HasSuffix "out" "_out" = false
                       ∧ TrimPrefix "protoc-gen-go" "protoc-gen-" = "go".
Proof. vm_compute. done. Qed.

Example run_spec_example :
  FlagSet.run {[ "args.txt" := "y.proto" +:+ lf ]}
    ["--include_imports"; "x.proto"; "@args.txt"]
  = Ok (mkEnv (mkFlags ["."] true false false "" "gcc") ∅
          ["x.proto"; "y.proto"]).
Proof. vm_compute. reflexivity. Qed.

(** ** Facts about the string functions *)

Section StringFacts.

Implicit Types s t : string.
Implicit Types c : ascii.

Lemma app_cons c s t : String c s +:+ t = String c (s +:+ t).
Proof. reflexivity. Qed.

Lemma app_nil_l t : "" +:+ t = t.
Proof. reflexivity. Qed.

Lemma string_length_app s t :
  String.length (s +:+ t) = (String.length s + String.length t)%nat.
Proof. induction s as [|c s IH]; [done|]. rewrite app_cons. cbn. by rewrite IH. Qed.

Lemma substring_all s : String.substring 0 (String.length s) s = s.
Proof. induction s as [|c s IH]; [done|]. cbn. by rewrite IH. Qed.

Lemma substring_app_l s t : String.substring 0 (String.length s) (s +:+ t) = s.
Proof.
  induction s as [|c s IH].
  - by destruct t.
  - rewrite app_cons. cbn. by rewrite IH.
Qed.

Lemma substring_app_r s t n :
  String.substring (String.length s) n (s +:+ t) = String.substring 0 n t.
Proof. induction s as [|c s IH]; [done|]. rewrite app_cons. cbn. apply IH. Qed.

Lemma HasPrefix_app p s : HasPrefix (p +:+ s) p = true.
Proof.
  unfold HasPrefix, slice. rewrite Nat.sub_0_r, substring_app_l, string_length_app.
  rewrite !bool_decide_eq_true_2; [done..|lia].
Qed.

Lemma TrimPrefix_app p s : TrimPrefix (p +:+ s) p = s.
Proof.
  unfold TrimPrefix. rewrite HasPrefix_app. unfold slice.
  rewrite string_length_app, substring_app_r.
  replace (String.length p + String.length s - String.length p)%nat
    with (String.length s) by lia.
  apply substring_all.
Qed.

Lemma slice_suffix s t :
  slice (s +:+ t) (String.length (s +:+ t) - String.length t)
    (String.length (s +:+ t)) = t.
Proof.
  unfold slice. rewrite string_length_app.
  replace (String.length s + String.length t - String.length t)%nat
    with (String.length s) by lia.
  rewrite substring_app_r.
  replace (String.length s + String.length t - String.length s)%nat
    with (String.length t) by lia.
  apply substring_all.
Qed.

Lemma HasSuffix_app s suffix : HasSuffix (s +:+ suffix) suffix = true.
Proof.
  unfold HasSuffix. rewrite slice_suffix.
  rewrite !bool_decide_eq_true_2; [done..|]. rewrite string_length_app. lia.
Qed.

Lemma TrimSuffix_app s suffix : TrimSuffix (s +:+ suffix) suffix = s.
Proof.
  unfold TrimSuffix. rewrite HasSuffix_app. unfold slice.
  rewrite string_length_app, Nat.sub_0_r.
  replace (String.length s + String.length suffix - String.length suffix)%nat
    with (String.length s) by lia.
  apply substring_app_l.
Qed.

(** A name that ends in one suffix does not end in another of the same
    length. *)
Lemma HasSuffix_other s suffix suffix' :
  String.length suffix = String.length suffix' → suffix ≠ suffix' →
  HasSuffix (s +:+ suffix) suffix' = false.
Proof.
  intros Hlen Hne. unfold HasSuffix. rewrite <- Hlen, slice_suffix.
  rewrite (bool_decide_eq_false_2 (suffix = suffix')) by done.
  apply andb_false_r.
Qed.

Lemma Split_length s c : length (Split s c) = S (Count s c).
Proof.
  induction s as [|d s IH]; [done|]. cbn. case_decide; cbn.
  - by rewrite IH.
  - destruct (Split s c); cbn in *; lia.
Qed.

Lemma Split_no_sep s c : Count s c = 0%nat → Split s c = [s].
Proof.
  induction s as [|d s IH]; [done|]. cbn. case_decide; [done|].
  intros H0. by rewrite IH.
Qed.

Lemma Split_app s t c :
  Count s c = 0%nat → Split (s +:+ String c t) c = s :: Split t c.
Proof.
  induction s as [|d s IH]; cbn.
  - intros _. rewrite app_nil_l. cbn. by rewrite decide_True.
  - case_decide; [done|]. intros H0. rewrite app_cons. cbn.
    rewrite decide_False by done. by rewrite IH.
Qed.

Lemma Split_two s t c :
  Count s c = 0%nat → Count t c = 0%nat →
  Split (s +:+ String c t) c = [s; t].
Proof. intros Hs Ht. by rewrite Split_app, (Split_no_sep t). Qed.

Lemma Split_many s c :
  (2 ≤ Count s c)%nat → ∃ x y z l, Split s c = x :: y :: z :: l.
Proof.
  intros H2. pose proof (Split_length s c) as Hlen.
  destruct (Split s c) as [|x [|y [|z l]]]; cbn in Hlen; try lia. eauto.
Qed.

Lemma SplitN2_no_sep s c : Count s c = 0%nat → SplitN2 s c = [s].
Proof.
  induction s as [|d s IH]; [done|]. cbn. case_decide; [done|].
  intros H0. by rewrite IH.
Qed.

Lemma SplitN2_app s t c :
  Count s c = 0%nat → SplitN2 (s +:+ String c t) c = [s; t].
Proof.
  induction s as [|d s IH]; cbn.
  - intros _. rewrite app_nil_l. cbn. by rewrite decide_True.
  - case_decide; [done|]. intros H0. rewrite app_cons. cbn.
    rewrite decide_False by done. by rewrite IH.
Qed.

Lemma Count_app s t c : Count (s +:+ t) c = (Count s c + Count t c)%nat.
Proof.
  induction s as [|d s IH]; [done|]. rewrite app_cons. cbn. rewrite IH. lia.
Qed.

Lemma stripTrailingSlashes_no_sep s :
  Count s "/"%char = 0%nat → stripTrailingSlashes s = s.
Proof.
  induction s as [|d s IH]; [done|]. cbn. case_decide; [done|].
  intros H0. by rewrite IH.
Qed.

Lemma stripTrailingSlashes_app s t :
  stripTrailingSlashes t ≠ "" →
  stripTrailingSlashes (s +:+ t) = s +:+ stripTrailingSlashes t.
Proof.
  intros Ht. induction s as [|d s IH]; [done|]. rewrite !app_cons. cbn.
  rewrite IH. case_decide; [|done]. rewrite decide_False; [done|].
  destruct s; cbn; [done|]. by rewrite app_cons.
Qed.

Lemma last_Split_app s t c :
  List.last (Split (s +:+ String c t) c) "" = List.last (Split t c) "".
Proof.
  induction s as [|d s IH].
  - rewrite app_nil_l. cbn. rewrite decide_True by done.
    pose proof (Split_length t c). by destruct (Split t c).
  - rewrite app_cons. cbn. case_decide.
    + rewrite <- IH. pose proof (Split_length (s +:+ String c t) c).
      by destruct (Split (s +:+ String c t) c).
    + rewrite <- IH. pose proof (Split_length (s +:+ String c t) c) as Hl.
      rewrite Count_app in Hl. cbn in Hl. rewrite decide_True in Hl by done.
      destruct (Split (s +:+ String c t) c) as [|x [|y l]]; cbn in Hl; try lia.
      done.
Qed.

(** [filepath.Base] of a name without separators is the name. *)
Lemma Base_name s : s ≠ "" → Count s "/"%char = 0%nat → Base s = s.
Proof.
  intros Hne H0. unfold Base. rewrite decide_False by done.
  rewrite stripTrailingSlashes_no_sep, Split_no_sep by done. cbn.
  by rewrite decide_False.
Qed.

(** [filepath.Base] of [dir/name] is the name. *)
Lemma Base_dir_name dir s :
  s ≠ "" → Count s "/"%char = 0%nat → Base (dir +:+ String "/" s) = s.
Proof.
  intros Hne H0. unfold Base.
  rewrite decide_False by (destruct dir; done).
  assert (stripTrailingSlashes (String "/" s) = String "/" s) as Hs.
  { cbn. rewrite decide_True by done.
    rewrite stripTrailingSlashes_no_sep by done. by rewrite decide_False. }
  rewrite stripTrailingSlashes_app by (by rewrite Hs).
  rewrite Hs, last_Split_app, Split_no_sep by done. cbn.
  by rewrite decide_False.
Qed.

End StringFacts.

(** ** Loops and single steps *)

Ltac solve_decides :=
  repeat case_decide; first [done | exfalso; intuition congruence].

Lemma bind_Ok {A B} (m : result A) (k : A → result B) b :
  m ≫= k = Ok b ↔ ∃ a, m = Ok a ∧ k a = Ok b.
Proof.
  destruct m; cbn; split; try (by intros [? [? ?]]); try done.
  - eauto.
  - intros [? [Ha ?]]. by injection Ha as ->.
Qed.

Lemma forEach_app {A S} (body : A → S → result S) l1 l2 s :
  forEach body (l1 ++ l2) s = forEach body l1 s ≫= forEach body l2.
Proof.
  revert s. induction l1 as [|a l1 IH]; intros s; [done|].
  cbn. destruct (body a s); cbn; auto.
Qed.

(** A loop with an entry on which the body never succeeds does not
    succeed. *)
Lemma forEach_fails {A S} (body : A → S → result S) l a s s' :
  a ∈ l → (∀ s0 s1, body a s0 ≠ Ok s1) → forEach body l s ≠ Ok s'.
Proof.
  intros [l1 [l2 ->]]%list_elem_of_split Hbad.
  rewrite forEach_app. intros [s1 [_ H2]]%bind_Ok.
  cbn in H2. apply bind_Ok in H2 as [s2 [H2 _]]. by eapply Hbad.
Qed.

Lemma forEach_not_OutOfFuel {A S} (body : A → S → result S) l s :
  (∀ a s0, body a s0 ≠ OutOfFuel) → forEach body l s ≠ OutOfFuel.
Proof.
  intros Hb. revert s. induction l as [|a l IH]; intros s; [done|].
  cbn. specialize (Hb a s). destruct (body a s); cbn; auto.
Qed.

Lemma pluginValueStep_not_OutOfFuel f name pv infos :
  pluginValueStep f name pv infos ≠ OutOfFuel.
Proof.
  unfold pluginValueStep.
  repeat (case_decide || case_match || cbn in * || simplify_eq); done.
Qed.

Lemma pluginPathValueStep_not_OutOfFuel v infos :
  pluginPathValueStep v infos ≠ OutOfFuel.
Proof.
  unfold pluginPathValueStep.
  repeat (case_decide || case_match || cbn in * || simplify_eq); done.
Qed.

(** The out-directive part of [pluginValueStep] on a raw value with more
    than one colon. *)
Lemma pluginValueStep_colons f name pv infos raw :
  0 ≤ OutIndex pv → pluginFake f !! Z.to_nat (OutIndex pv) = Some raw →
  (2 ≤ Count raw ":"%char)%nat →
  pluginValueStep f name pv infos = Err (OutMultipleColonsError name raw).
Proof.
  intros Hi Hraw Hc. unfold pluginValueStep.
  rewrite decide_True by done. rewrite Hraw.
  destruct (Split_many _ _ Hc) as (x & y & z & l & ->). done.
Qed.

(** The out-directive part on a raw value with at most one colon: [out]
    and [opt] are what the split yields. *)
Lemma pluginValueStep_out f name pv infos raw out opt :
  0 ≤ OutIndex pv → pluginFake f !! Z.to_nat (OutIndex pv) = Some raw →
  (Split raw ":"%char = [out] ∧ opt = "") ∨ Split raw ":"%char = [opt; out] →
  OptIndex pv < 0 →
  pluginValueStep f name pv infos =
    let info := infoOf infos name in
    if decide (Out info ≠ "") then Err (DuplicateOutError name)
    else if decide (opt ≠ "" ∧ Opt info ≠ "") then Err (DuplicateOptError name)
    else Ok (<[name := mkPluginInfo out (if decide (opt ≠ "") then opt else Opt info)
                         (Path info)]> infos).
Proof.
  intros Hi Hraw Hsplit Ho. unfold pluginValueStep.
  rewrite decide_True by done. rewrite Hraw.
  destruct Hsplit as [[H1 ->] | H2].
  - pose proof (Split_length raw ":"%char) as Hl. rewrite H1 in Hl.
    cbn in Hl. rewrite H1. rewrite Split_no_sep in H1 by lia.
    injection H1 as ->. unfold setOpt, setOut; cbn.
    repeat (case_decide; cbn; try done); try lia; exfalso; intuition congruence.
  - rewrite H2. unfold setOpt, setOut; cbn.
    repeat (case_decide; cbn; try done); try lia; exfalso; intuition congruence.
Qed.

(** ** [Normalize] on plugin flag names *)

Lemma Normalize_out name f :
  name +:+ "_out" ≠ "descriptor_set_out" →
  Normalize (name +:+ "_out") f
  = (pluginFakeFlagName, pluginFakeParse (name +:+ "_out") "_out" true f).
Proof.
  intros Hne. unfold Normalize.
  by rewrite bool_decide_eq_true_2, HasSuffix_app.
Qed.

Lemma Normalize_opt name f :
  Normalize (name +:+ "_opt") f
  = (pluginFakeFlagName, pluginFakeParse (name +:+ "_opt") "_opt" false f).
Proof.
  unfold Normalize.
  rewrite (HasSuffix_other name "_opt" "_out") by done.
  by rewrite andb_false_r, HasSuffix_app.
Qed.

(** ** Flags as the flag set delivers them *)

Lemma readAsCSV_singleField v : singleField v → FlagSet.readAsCSV v = Ok [v].
Proof.
  intros (Hne & Hc & Hsp). unfold FlagSet.readAsCSV.
  rewrite bool_decide_eq_false_2 by done.
  rewrite bool_decide_eq_true_2 by done. by rewrite Split_no_sep.
Qed.

(** A value joined from two single fields by a colon is a single field. *)
Lemma singleField_colon opt dir :
  singleField opt → singleField dir → singleField (opt +:+ ":" +:+ dir).
Proof.
  intros (Hne & Hc & Hsp) (_ & Hc' & Hsp'). split; [|split].
  - by destruct opt.
  - by rewrite !Count_app, Hc, Hc'.
  - rewrite Forall_forall in Hsp, Hsp'. apply Forall_forall. intros c Hin.
    rewrite !Count_app, (Hsp c Hin), (Hsp' c Hin). cbn.
    unfold FlagSet.csvSpecial in Hin. apply list_elem_of_In in Hin.
    cbn in Hin. destruct Hin as [<-|[<-|[<-|[]]]]; done.
Qed.

Lemma setFlag_pluginFake value vs f :
  FlagSet.readAsCSV value = Ok vs →
  FlagSet.setFlag pluginFakeFlagName value f
  = Ok (mkFlagsBuilder (fbFlags f) (PluginPathValues f) (Encode f) (Decode f)
          (DecodeRaw f) (DescriptorSetIn f) (pluginFake f ++ vs)
          (pluginNameToValue f)).
Proof. intros H. unfold FlagSet.setFlag. cbn. by rewrite H. Qed.

Lemma pluginFlag_out name v vs f :
  name +:+ "_out" ≠ "descriptor_set_out" →
  FlagSet.readAsCSV v = Ok vs →
  pluginFlag (name +:+ "_out") v f
  = Ok (mkFlagsBuilder (fbFlags f) (PluginPathValues f) (Encode f) (Decode f)
          (DecodeRaw f) (DescriptorSetIn f) (pluginFake f ++ vs)
          (<[name := mkPluginValue (Z.of_nat (length (pluginFake f)))
                       (OptIndex (default newPluginValue
                                    (pluginNameToValue f !! name)))]>
             (pluginNameToValue f))).
Proof.
  intros Hne Hv. unfold pluginFlag. rewrite Normalize_out by done.
  rewrite (setFlag_pluginFake v vs) by done.
  unfold pluginFakeParse. by rewrite TrimSuffix_app.
Qed.

Lemma pluginFlag_opt name v vs f :
  FlagSet.readAsCSV v = Ok vs →
  pluginFlag (name +:+ "_opt") v f
  = Ok (mkFlagsBuilder (fbFlags f) (PluginPathValues f) (Encode f) (Decode f)
          (DecodeRaw f) (DescriptorSetIn f) (pluginFake f ++ vs)
          (<[name := mkPluginValue
                       (OutIndex (default newPluginValue
                                    (pluginNameToValue f !! name)))
                       (Z.of_nat (length (pluginFake f)))]>
             (pluginNameToValue f))).
Proof.
  intros Hv. unfold pluginFlag. rewrite Normalize_opt.
  rewrite (setFlag_pluginFake v vs) by done.
  unfold pluginFakeParse. by rewrite TrimSuffix_app.
Qed.

(** ** The merge policy *)

(** C6: merging a child into its parent ORs every boolean toggle, appends
    the child's include directories after the parent's, and takes the
    child's output location and error format unless they are empty. *)
Theorem merge_policy (parent child : flagsBuilder) :
  let m := fbFlags (merge parent child) in
  let p := fbFlags parent in
  let c := fbFlags child in
  IncludeImports m = IncludeImports p || IncludeImports c
  ∧ IncludeSourceInfo m = IncludeSourceInfo p || IncludeSourceInfo c
  ∧ PrintFreeFieldNumbers m = PrintFreeFieldNumbers p || PrintFreeFieldNumbers c
  ∧ DecodeRaw (merge parent child) = DecodeRaw parent || DecodeRaw child
  ∧ IncludeDirPaths m = IncludeDirPaths p ++ IncludeDirPaths c
  ∧ Output m = (if decide (Output c = "") then Output p else Output c)
  ∧ ErrorFormat m
    = (if decide (ErrorFormat c = "") then ErrorFormat p else ErrorFormat c).
Proof.
  cbn. repeat split.
  - by destruct (IncludeImports (fbFlags child)), (IncludeImports (fbFlags parent)).
  - by destruct (IncludeSourceInfo (fbFlags child)),
         (IncludeSourceInfo (fbFlags parent)).
  - by destruct (PrintFreeFieldNumbers (fbFlags child)),
         (PrintFreeFieldNumbers (fbFlags parent)).
  - by destruct (DecodeRaw child), (DecodeRaw parent).
  - repeat case_decide; congruence.
  - repeat case_decide; congruence.
Qed.

(** The instance the specification singles out: include-imports off in the
    parent and on in the nested file is on after the merge. *)
Example merge_include_imports :
  let child := FlagSet.setBool "include_imports" true newFlagsBuilder in
  IncludeImports (fbFlags newFlagsBuilder) = false
  ∧ IncludeImports (fbFlags (merge newFlagsBuilder child)) = true.
Proof. done. Qed.

(** ** Steps of the resolution that do not depend on the map order *)

Lemma infoOf_insert m name info : infoOf (<[name := info]> m) name = info.
Proof. unfold infoOf. by rewrite lookup_insert_eq. Qed.

Lemma infoOf_insert_ne m name name' info :
  name ≠ name' → infoOf (<[name := info]> m) name' = infoOf m name'.
Proof. intros. unfold infoOf. by rewrite lookup_insert_ne. Qed.

(** [pluginValueStep] on an entry with both an out and an opt index. *)
Lemma pluginValueStep_both f name pv infos raw out opt v :
  0 ≤ OutIndex pv → pluginFake f !! Z.to_nat (OutIndex pv) = Some raw →
  (Split raw ":"%char = [out] ∧ opt = "") ∨ Split raw ":"%char = [opt; out] →
  0 ≤ OptIndex pv → pluginFake f !! Z.to_nat (OptIndex pv) = Some v →
  pluginValueStep f name pv infos =
    let info := infoOf infos name in
    if decide (Out info ≠ "") then Err (DuplicateOutError name)
    else if decide (opt ≠ "" ∨ Opt info ≠ "") then Err (DuplicateOptError name)
    else Ok (<[name := mkPluginInfo out v (Path info)]> infos).
Proof.
  intros Hi Hraw Hsplit Ho Hv. unfold pluginValueStep.
  rewrite (decide_True (P := 0 ≤ OutIndex pv)) by done.
  rewrite Hraw. cbv zeta.
  assert (∃ out0, (match Split raw ":"%char with
                   | [_] => Ok (raw, "")
                   | [s0; s1] => Ok (s1, s0)
                   | _ => Err (OutMultipleColonsError name raw)
                   end) = Ok (out0, opt) ∧ out0 = out) as (out0 & -> & ->).
  { destruct Hsplit as [[H1 ->] | H2].
    - pose proof (Split_length raw ":"%char) as Hl. rewrite H1 in Hl.
      cbn in Hl. rewrite H1. rewrite Split_no_sep in H1 by lia.
      injection H1 as ->. eauto.
    - rewrite H2. eauto. }
  cbn. unfold setOpt, setOut. cbn.
  destruct (decide (Out (infoOf infos name) ≠ "")); [done|].
  destruct (decide (opt ≠ "")) as [Hopt|Hopt].
  - rewrite (decide_True (P := opt ≠ "" ∨ _)) by auto.
    destruct (decide (Opt (infoOf infos name) ≠ "")); [done|]. cbn.
    rewrite (decide_True (P := 0 ≤ OptIndex pv)) by done.
    rewrite !infoOf_insert. cbn. by rewrite decide_True.
  - cbn. rewrite (decide_True (P := 0 ≤ OptIndex pv)) by done.
    rewrite Hv, !infoOf_insert. cbn.
    destruct (decide (Opt (infoOf infos name) ≠ "")).
    + by rewrite decide_True by auto.
    + rewrite decide_False by (intros [?|?]; done).
      by rewrite insert_insert_eq.
Qed.

(** ** A directive step only touches the entry of its plugin *)

Lemma pluginValueStep_directiveInfo f name pv s :
  pluginValueStep f name pv s
  = directiveInfo f name pv (infoOf s name)
      ≫= λ r, Ok (match r with Some i => <[name := i]> s | None => s end).
Proof.
  unfold pluginValueStep, directiveInfo.
  destruct (decide (0 ≤ OutIndex pv)); cbn.
  - destruct (pluginFake f !! Z.to_nat (OutIndex pv)) as [raw|]; [|done].
    destruct (match Split raw ":"%char with
              | [_] => Ok (raw, "") | [s0; s2] => Ok (s2, s0)
              | _ => Err (OutMultipleColonsError name raw) end)
      as [[out opt]| | |]; cbn; try done.
    repeat (case_decide; cbn; rewrite ?infoOf_insert; cbn; try done);
      try (case_match; cbn; by rewrite ?insert_insert_eq).
  - repeat (case_decide; cbn; try done). by case_match.
Qed.

Lemma infoOf_update_ne n1 n2 (r : option pluginInfo) s :
  n1 ≠ n2 →
  infoOf (match r with Some i => <[n1 := i]> s | None => s end) n2
  = infoOf s n2.
Proof. intros. destruct r; [by rewrite infoOf_insert_ne|done]. Qed.

(** Two successful steps for different plugins can be swapped. *)
Lemma pluginValueStep_swap f n1 pv1 n2 pv2 s s1 s2 :
  n1 ≠ n2 →
  pluginValueStep f n1 pv1 s = Ok s1 → pluginValueStep f n2 pv2 s1 = Ok s2 →
  ∃ s1', pluginValueStep f n2 pv2 s = Ok s1'
         ∧ pluginValueStep f n1 pv1 s1' = Ok s2.
Proof.
  intros Hne H1 H2. rewrite pluginValueStep_directiveInfo in H1, H2.
  apply bind_Ok in H1 as (r1 & H1 & [= <-]).
  apply bind_Ok in H2 as (r2 & H2 & [= <-]).
  rewrite infoOf_update_ne in H2 by done.
  exists (match r2 with Some i => <[n2 := i]> s | None => s end).
  rewrite !pluginValueStep_directiveInfo.
  rewrite infoOf_update_ne by done. rewrite H1, H2. cbn. split; [done|].
  destruct r1, r2; try done. by rewrite insert_insert_ne.
Qed.

(** A loop over entries with distinct keys whose successful steps can be
    swapped succeeds with the same result in every order. *)
Lemma forEach_Permutation {V S : Type}
    (body : string * V → S → result S) (l1 l2 : list (string * V)) s s' :
  (∀ a b t t1 t2, a.1 ≠ b.1 → body a t = Ok t1 → body b t1 = Ok t2 →
     ∃ t1', body b t = Ok t1' ∧ body a t1' = Ok t2) →
  l1 ≡ₚ l2 → NoDup l1.*1 →
  forEach body l1 s = Ok s' → forEach body l2 s = Ok s'.
Proof.
  intros Hswap Hperm. revert s s'.
  induction Hperm as [|x l l' _ IH|x y l|l l' l'' Hp1 IH1 Hp2 IH2];
    intros s s' Hnd.
  - done.
  - cbn. intros [t [Hx Hl]]%bind_Ok. rewrite Hx. cbn.
    apply IH; [|done]. cbn in Hnd. by apply NoDup_cons in Hnd as [_ ?].
  - cbn. intros [t1 [Hy H]]%bind_Ok. apply bind_Ok in H as [t2 [Hx Hl]].
    cbn in Hnd. apply NoDup_cons in Hnd as [Hyx _].
    destruct (Hswap y x s t1 t2) as (t1' & Hx' & Hy'); [|done|done|].
    { intros Heq. apply Hyx. rewrite Heq. by left. }
    rewrite Hx'. cbn. by rewrite Hy'.
  - intros H. apply IH2; [|by apply IH1]. by rewrite <- Hp1.
Qed.

(** A directive step reads the builder only at the two recorded indices. *)
Lemma pluginValueStep_fake f g name pv infos :
  (0 ≤ OutIndex pv →
   pluginFake g !! Z.to_nat (OutIndex pv) = pluginFake f !! Z.to_nat (OutIndex pv)) →
  (0 ≤ OptIndex pv →
   pluginFake g !! Z.to_nat (OptIndex pv) = pluginFake f !! Z.to_nat (OptIndex pv)) →
  pluginValueStep g name pv infos = pluginValueStep f name pv infos.
Proof.
  intros Ho Hp. unfold pluginValueStep.
  destruct (decide (0 ≤ OutIndex pv)), (decide (0 ≤ OptIndex pv));
    rewrite ?Ho, ?Hp by done; done.
Qed.

(** The step for a plugin whose out value carries options and which has a
    separate opt index as well. *)
Lemma pluginValueStep_twice_opt f name pv infos raw out opt :
  0 ≤ OutIndex pv → pluginFake f !! Z.to_nat (OutIndex pv) = Some raw →
  Split raw ":"%char = [opt; out] → opt ≠ "" → 0 ≤ OptIndex pv →
  pluginValueStep f name pv infos
  = if decide (Out (infoOf infos name) ≠ "")
    then Err (DuplicateOutError name) else Err (DuplicateOptError name).
Proof.
  intros Hi Hraw Hsplit Hopt Ho. unfold pluginValueStep.
  rewrite (decide_True (P := 0 ≤ OutIndex pv)) by done.
  rewrite Hraw, Hsplit. cbn.
  destruct (decide (Out (infoOf infos name) ≠ "")); [done|].
  rewrite (decide_True (P := opt ≠ "")) by done. unfold setOut, setOpt. cbn.
  destruct (decide (Opt (infoOf infos name) ≠ "")); [done|]. cbn.
  rewrite (decide_True (P := 0 ≤ OptIndex pv)) by done.
  rewrite infoOf_insert. cbn. by rewrite decide_True.
Qed.

Lemma forEach_ext {A S} (body1 body2 : A → S → result S) l s :
  (∀ a s0, a ∈ l → body1 a s0 = body2 a s0) →
  forEach body1 l s = forEach body2 l s.
Proof.
  revert s. induction l as [|a l IH]; intros s Hext; [done|].
  cbn. rewrite Hext by left. destruct (body2 a s); cbn; try done.
  apply IH. intros b s0 Hb. apply Hext. by right.
Qed.

(** The builder a fresh flag set is left with after a lone out flag. *)
Lemma pluginFlag_out_fresh name v :
  name +:+ "_out" ≠ "descriptor_set_out" → singleField v →
  pluginFlag (name +:+ "_out") v newFlagsBuilder
  = Ok (mkFlagsBuilder (fbFlags newFlagsBuilder) [] "" "" false [] [v]
          {[name := mkPluginValue 0 (-1)]}).
Proof.
  intros Hne Hv.
  rewrite (pluginFlag_out name v [v]) by (by try apply readAsCSV_singleField).
  cbn. by rewrite lookup_empty, insert_empty.
Qed.

Lemma pluginFlag_opt_fresh name v :
  singleField v →
  pluginFlag (name +:+ "_opt") v newFlagsBuilder
  = Ok (mkFlagsBuilder (fbFlags newFlagsBuilder) [] "" "" false [] [v]
          {[name := mkPluginValue (-1) 0]}).
Proof.
  intros Hv. rewrite (pluginFlag_opt name v [v]) by (by apply readAsCSV_singleField).
  cbn. by rewrite lookup_empty, insert_empty.
Qed.

(** The body of the path loop on a value that names the plugin [name] with
    the reserved prefix and carries the path [p]. *)
Lemma pluginPathValueStep_resolved v name p infos :
  (SplitN2 v "="%char = [v] ∧ Base v = "protoc-gen-" +:+ name ∧ p = v)
  ∨ SplitN2 v "="%char = ["protoc-gen-" +:+ name; p] →
  pluginPathValueStep v infos
  = if decide (Path (infoOf infos name) ≠ "")
    then Err (DuplicatePluginPathError name)
    else Ok (<[name := setPath p (infoOf infos name)]> infos).
Proof.
  intros H. unfold pluginPathValueStep.
  destruct H as [(-> & -> & ->) | ->]; cbn;
    by rewrite HasPrefix_app, TrimPrefix_app.
Qed.

Lemma pluginPathValueStep_twice v1 v2 name p1 p2 infos :
  (SplitN2 v1 "="%char = [v1] ∧ Base v1 = "protoc-gen-" +:+ name ∧ p1 = v1)
  ∨ SplitN2 v1 "="%char = ["protoc-gen-" +:+ name; p1] →
  (SplitN2 v2 "="%char = [v2] ∧ Base v2 = "protoc-gen-" +:+ name ∧ p2 = v2)
  ∨ SplitN2 v2 "="%char = ["protoc-gen-" +:+ name; p2] →
  p1 ≠ "" → Path (infoOf infos name) = "" →
  forEach pluginPathValueStep [v1; v2] infos
  = Err (DuplicatePluginPathError name).
Proof.
  intros H1 H2 Hp1 Hfree. cbn.
  rewrite (pluginPathValueStep_resolved v1 name p1) by done.
  rewrite decide_False by auto. cbn.
  rewrite (pluginPathValueStep_resolved v2 name p2) by done.
  rewrite decide_True; [done|].
  unfold infoOf at 1. by rewrite lookup_insert_eq.
Qed.

Lemma merge_assoc f g h : merge f (merge g h) = merge (merge f g) h.
Proof.
  unfold merge. cbn. f_equal.
  - f_equal.
    + by rewrite app_assoc.
    + by destruct (IncludeImports (fbFlags h)), (IncludeImports (fbFlags g)).
    + by destruct (IncludeSourceInfo (fbFlags h)),
           (IncludeSourceInfo (fbFlags g)).
    + by destruct (PrintFreeFieldNumbers (fbFlags h)),
           (PrintFreeFieldNumbers (fbFlags g)).
    + repeat case_decide; congruence.
    + repeat case_decide; congruence.
  - by rewrite app_assoc.
  - repeat case_decide; congruence.
  - repeat case_decide; congruence.
  - by destruct (DecodeRaw h), (DecodeRaw g).
  - by rewrite app_assoc.
Qed.

Lemma foldl_merge_assoc f g l :
  merge f (foldl merge g l) = foldl merge (merge f g) l.
Proof.
  revert g. induction l as [|h l IH]; intros g; [done|].
  cbn. by rewrite IH, merge_assoc.
Qed.

Lemma IncludeDirPaths_foldl_merge f l :
  IncludeDirPaths (fbFlags (foldl merge f l))
  = flat_map (λ b, IncludeDirPaths (fbFlags b)) (f :: l).
Proof.
  revert f. induction l as [|g l IH]; intros f; cbn.
  - by rewrite app_nil_r.
  - rewrite IH. cbn. by rewrite app_assoc.
Qed.

Lemma ErrorFormat_foldl_merge f l :
  Forall (λ b, ErrorFormat (fbFlags b) = "") (f :: l) →
  ErrorFormat (fbFlags (foldl merge f l)) = "".
Proof.
  revert f. induction l as [|g l IH]; intros f Hall; cbn.
  - by apply Forall_inv in Hall.
  - apply IH. apply Forall_cons in Hall as [Hf Hall].
    apply Forall_cons in Hall as [Hg Hall]. constructor; [|done].
    cbn. rewrite Hg. by rewrite decide_False by auto.
Qed.

Lemma checkPluginInfo_loop (l : list (string * pluginInfo)) :
  (Forall (λ entry, ¬ lacksOut entry.2) l
   ∧ forEach checkPluginInfo l () = Ok ())
  ∨ (∃ name info, (name, info) ∈ l ∧ Out info = ""
       ∧ ((Opt info ≠ ""
           ∧ forEach checkPluginInfo l ()
             = Err (CannotSpecifyOptWithoutOutError name))
          ∨ (Opt info = "" ∧ Path info ≠ ""
             ∧ forEach checkPluginInfo l ()
               = Err (CannotSpecifyPathWithoutOutError name)))).
Proof.
  induction l as [|[name info] l IH].
  - left. by split.
  - cbn. destruct (decide (Out info = "" ∧ Opt info ≠ "")) as [[H1 H2]|H1].
    { right. exists name, info. split; [by left|]. split; [done|]. by left. }
    destruct (decide (Out info = "" ∧ Path info ≠ "")) as [[H3 H4]|H3].
    { right. exists name, info. split; [by left|]. split; [done|]. right.
      split; [|done]. destruct (decide (Opt info = "")); [done|].
      by destruct H1. }
    cbn. destruct IH as [[Hall Hok]|(n & i & Hin & Hout & Hcase)].
    + left. split; [|done]. constructor; [|done]. cbn.
      intros [? [?|?]]; [by apply H1|by apply H3].
    + right. exists n, i. split; [by right|]. by split.
Qed.

Lemma checkUnsupported_not_OutOfFuel f : checkUnsupported f ≠ OutOfFuel.
Proof.
  unfold checkUnsupported. destruct (DecodeRaw f); repeat case_decide; done.
Qed.

(** ** The expansion of argument files *)

Section ExpansionFacts.

Context (rangeOrder : ∀ V : Type, gmap string V → list (string * V)).
Context (files : gmap string string).
Context (flagSetParse :
           string → list string → error + (flagsBuilder * list string)).

Local Abbreviation parsePlugins := (parsePluginNameToPluginInfo rangeOrder).
Local Abbreviation buildRec' := (buildRec rangeOrder files flagSetParse).
Local Abbreviation Build' := (Build rangeOrder files flagSetParse).
Local Abbreviation inputPaths' := (inputPaths files flagSetParse).
Local Abbreviation referencedPaths' := (referencedPaths files flagSetParse).
Local Abbreviation chainBuilders' := (chainBuilders files flagSetParse).
Local Abbreviation fileContents' := (fileContents files flagSetParse).
Local Abbreviation walkSpec := (walkSpec files flagSetParse).

Lemma parsePlugins_not_OutOfFuel f infos : parsePlugins f infos ≠ OutOfFuel.
Proof.
  unfold parsePluginNameToPluginInfo.
  destruct (forEach _ (rangeOrder _ _) infos) eqn:E; cbn; try done.
  - apply forEach_not_OutOfFuel, pluginPathValueStep_not_OutOfFuel.
  - exfalso. revert E. apply forEach_not_OutOfFuel.
    intros [n pv] s. apply pluginValueStep_not_OutOfFuel.
Qed.

(** [Build] starts by resolving the builder's own directives against an
    empty table. *)
Lemma Build_parse_Err f args e :
  parsePlugins f ∅ = Err e → Build' f args = Err e.
Proof. intros H. unfold Build. cbn. by rewrite H. Qed.

Lemma Build_parse_fails f args :
  (∀ infos, parsePlugins f ∅ ≠ Ok infos) → ∀ e, Build' f args ≠ Ok e.
Proof.
  intros H e. unfold Build. cbn.
  destruct (parsePlugins f ∅) eqn:E; cbn; try done. by destruct (H a).
Qed.

(** Plain tokens are appended to the paths and change nothing else. *)
Lemma buildLoop_plain rec pre rest paths f infos seen :
  Forall (λ a, isPlain a = true) pre →
  buildLoop files flagSetParse rec (pre ++ rest) paths f infos seen
  = buildLoop files flagSetParse rec rest (paths ++ pre) f infos seen.
Proof.
  intros Hpre. revert paths.
  induction Hpre as [|a pre Ha _ IH]; intros paths; cbn.
  - by rewrite app_nil_r.
  - destruct a as [|c a]; [done|]. cbn in Ha.
    apply bool_decide_eq_true in Ha. rewrite decide_True by done.
    rewrite IH. by rewrite <- app_assoc.
Qed.

Lemma buildLoop_app rec l1 l2 paths f infos seen :
  buildLoop files flagSetParse rec (l1 ++ l2) paths f infos seen
  = buildLoop files flagSetParse rec l1 paths f infos seen
      ≫= λ '(paths', f', infos', seen'),
           buildLoop files flagSetParse rec l2 paths' f' infos' seen'.
Proof.
  revert paths f infos seen.
  induction l1 as [|a l1 IH]; intros paths f infos seen; [done|].
  cbn. destruct a as [|c p]; [done|].
  case_decide; [apply IH|]. case_decide; [done|].
  destruct (files !! p); [|done].
  destruct (flagSetParse p _) as [err|[sub subArgs]]; [done|].
  destruct (rec sub subArgs infos _) as [[[[sp sf] si] ss]| | |]; cbn; auto.
Qed.

(** A reference to a visited path stops the loop. *)
Lemma buildLoop_visited rec p post paths f infos seen :
  p ∈ seen →
  buildLoop files flagSetParse rec (String "@" p :: post) paths f infos seen
  = Err (RecursiveReferenceError p).
Proof.
  intros Hp. cbn. rewrite decide_False by (intros ?; done).
  by rewrite decide_True.
Qed.

Lemma buildLoop_Ok d rec :
  (∀ f args infos seen w,
     rec f args infos seen = Ok w → walkSpec d [] f args seen w) →
  ∀ args paths f infos seen w,
    buildLoop files flagSetParse rec args paths f infos seen = Ok w →
    walkSpec (S d) paths f args seen w.
Proof.
  intros Hrec args.
  induction args as [|a args IH]; intros paths f infos seen w; cbn.
  - intros [= <-]. cbn. rewrite app_nil_r. split; [done|]. split; [|done].
    by rewrite union_empty_r_L.
  - destruct a as [|c p]; [done|].
    case_decide as Hc.
    + intros Hw. apply IH in Hw. destruct w as [[[paths1 f1] infos1] seen1].
      destruct Hw as (-> & -> & ->).
      assert (∀ B (x y : B), match c with
              | "@"%char => x | _ => y end = y) as Hm.
      { intros B x y.
        destruct c as [[] [] [] [] [] [] [] []]; try done. }
      cbn. rewrite !Hm. split; [by rewrite <- app_assoc|].
      split; [by rewrite union_empty_l_L|done].
    + subst c.
      case_decide; [done|].
      destruct (files !! p) as [data|] eqn:Hfile; [|done].
      destruct (flagSetParse p _) as [err|[sub subArgs]] eqn:Hparse; [done|].
      destruct (rec sub subArgs infos _) as [[[[sp sf] si] ss]| | |] eqn:Hsub;
        cbn; try done.
      intros Hw. apply IH in Hw. apply Hrec in Hsub.
      destruct w as [[[paths1 f1] infos1] seen1].
      destruct Hw as (-> & -> & ->). destruct Hsub as (-> & -> & ->).
      cbn. unfold fileContents. rewrite Hfile, Hparse. cbn.
      split; [by rewrite <- app_assoc|].
      split; [apply set_eq; intros x; set_unfold; tauto|].
      by rewrite foldl_app, foldl_merge_assoc.
Qed.

Lemma buildRec_Ok fuel f args infos seen w :
  buildRec' fuel f args infos seen = Ok w → walkSpec fuel [] f args seen w.
Proof.
  revert f args infos seen w.
  induction fuel as [|d IH]; intros f args infos seen w; [done|].
  cbn. intros [infos1 [_ Hw]]%bind_Ok.
  by apply (buildLoop_Ok d _ IH) in Hw.
Qed.

(** What a successful [Build] went through. *)
Lemma Build_Ok_inv f args e :
  Build' f args = Ok e →
  ∃ paths f1 infos seen,
    buildRec' (S (size files)) f args ∅ ∅ = Ok (paths, f1, infos, seen)
    ∧ checkUnsupported f1 = Ok ()
    ∧ forEach checkPluginInfo (rangeOrder _ infos) () = Ok ()
    ∧ paths ≠ []
    ∧ e = mkEnv (withDefaults (fbFlags f1)) infos paths.
Proof.
  unfold Build. intros [[[[paths f1] infos] seen] [Hrec H]]%bind_Ok.
  apply bind_Ok in H as [[] [Hun H]]. apply bind_Ok in H as [[] [Hchk H]].
  case_decide as Hlen; [done|]. injection H as <-.
  exists paths, f1, infos, seen. repeat split; try done.
  intros ->. by apply Hlen.
Qed.

(** The visited set only grows. *)
Lemma buildRec_seen_mono fuel f args infos seen w :
  buildRec' fuel f args infos seen = Ok w → seen ⊆ w.2.
Proof.
  intros Hw%buildRec_Ok. destruct w as [[[paths f1] infos1] seen1].
  destruct Hw as (_ & -> & _). apply union_subseteq_l.
Qed.

Lemma inputPaths_no_refs d args :
  Forall (λ a, ∀ p, a ≠ String "@" p) args → inputPaths' (S d) args = args.
Proof.
  induction 1 as [|a args Ha _ IH]; [done|].
  cbn in *. rewrite IH.
  destruct a as [|c a]; [done|].
  destruct c as [[] [] [] [] [] [] [] []]; try done. by destruct (Ha a).
Qed.

(** On plain tokens alone the walk succeeds and returns them unchanged. *)
Lemma buildRec_plain d f args infos infos1 seen :
  Forall (λ a, isPlain a = true) args →
  parsePlugins f infos = Ok infos1 →
  buildRec' (S d) f args infos seen = Ok (args, f, infos1, seen).
Proof.
  intros Hplain Hparse. cbn. rewrite Hparse. cbn.
  rewrite <- (app_nil_r args) at 1. by rewrite buildLoop_plain.
Qed.

(** With plain tokens, directives that resolve and pass the cross-check,
    and no unsupported flag, [Build] returns the environment. *)
Lemma Build_plain f args infos :
  Forall (λ a, isPlain a = true) args → args ≠ [] →
  parsePlugins f ∅ = Ok infos →
  checkUnsupported f = Ok () →
  forEach checkPluginInfo (rangeOrder _ infos) () = Ok () →
  Build' f args = Ok (mkEnv (withDefaults (fbFlags f)) infos args).
Proof.
  intros Hplain Hne Hparse Hun Hchk. unfold Build.
  rewrite (buildRec_plain _ f args ∅ infos ∅) by done. cbn.
  rewrite Hun. cbn. rewrite Hchk. cbn.
  rewrite decide_False; [done|]. by destruct args.
Qed.

(** C3: the input paths of a resolved environment are the positional
    tokens in depth-first, left-to-right order, each [@file] token replaced
    in place by the paths its expansion contributes; without [@] tokens
    they are the argument vector itself. *)
Theorem input_paths_order (f : flagsBuilder) (args : list string) (e : env) :
  Build' f args = Ok e →
  FilePaths e = inputPaths' (S (size files)) args
  ∧ (Forall (λ a, ∀ p, a ≠ String "@" p) args → FilePaths e = args).
Proof.
  intros (paths & f1 & infos & seen & Hrec & _ & _ & _ & ->)%Build_Ok_inv.
  apply buildRec_Ok in Hrec as (-> & _ & _). cbn [FilePaths app].
  split; [done|]. apply inputPaths_no_refs.
Qed.

(** *** The visited set *)


(** *** Cycles *)

(** A walk that succeeds found every path it references not visited, and
    the walk of that file's tokens succeeded too. *)
Lemma buildLoop_reference rec :
  (∀ f args infos seen w, rec f args infos seen = Ok w → seen ⊆ w.2) →
  ∀ args paths f infos seen w p,
    buildLoop files flagSetParse rec args paths f infos seen = Ok w →
    String "@" p ∈ args →
    ∃ sub subArgs infos1 seen1 w1,
      fileContents' p = Some (sub, subArgs) ∧ seen ⊆ seen1 ∧ (p ∉ seen1)
      ∧ rec sub subArgs infos1 ({[p]} ∪ seen1) = Ok w1.
Proof.
  intros Hmono args.
  induction args as [|a args IH]; intros paths f infos seen w p Hw Hin.
  - by apply elem_of_nil in Hin.
  - cbn in Hw. destruct a as [|c p0]; [done|].
    case_decide as Hc.
    + apply elem_of_cons in Hin as [[= <- _]|Hin]; [done|]. by eapply IH.
    + subst c. case_decide as Hseen; [done|].
      unfold fileContents.
      destruct (files !! p0) as [data|] eqn:Hfile; [|done].
      destruct (flagSetParse p0 _) as [err|[sub subArgs]] eqn:Hparse; [done|].
      destruct (rec sub subArgs infos _) as [[[[sp sf] si] ss]| | |] eqn:Hsub;
        cbn in Hw; try done.
      apply elem_of_cons in Hin as [[= ->]|Hin].
      * exists sub, subArgs, infos, seen, (sp, sf, si, ss).
        by rewrite Hfile, Hparse.
      * destruct (IH _ _ _ _ _ _ Hw Hin)
          as (sub' & subArgs' & infos1 & seen1 & w1 & Hfc & Hsub1 & Hp & Hrec).
        exists sub', subArgs', infos1, seen1, w1. split; [done|].
        split; [|done]. apply Hmono in Hsub. cbn in Hsub.
        etrans; [|exact Hsub1]. etrans; [|exact Hsub]. apply union_subseteq_r.
Qed.

(** No chain of references of a successful walk leads to a visited path
    or back into itself. *)
Lemma buildRec_acyclic fuel :
  ∀ f args infos seen w c q,
    buildRec' fuel f args infos seen = Ok w →
    refChain files flagSetParse c q args → (q ∉ seen) ∧ (q ∉ c).
Proof.
  induction fuel as [|d IH]; intros f args infos seen w c q Hw Hc; [done|].
  cbn in Hw. apply bind_Ok in Hw as [infos0 [_ Hloop]].
  assert (∀ f args infos seen w,
            buildRec' d f args infos seen = Ok w → seen ⊆ w.2) as Hmono
    by (intros; by eapply buildRec_seen_mono).
  destruct c as [|p c]; cbn in Hc.
  - destruct (buildLoop_reference _ Hmono _ _ _ _ _ _ q Hloop Hc)
      as (_ & _ & _ & seen1 & _ & _ & Hsub & Hq & _).
    split; [|apply not_elem_of_nil]. intros Hin. by apply Hq, Hsub.
  - destruct Hc as (Hin & sub & subArgs & Hfc & Hc).
    destruct (buildLoop_reference _ Hmono _ _ _ _ _ _ p Hloop Hin)
      as (sub' & subArgs' & infos1 & seen1 & w1 & Hfc' & Hsub & Hp & Hrec).
    rewrite Hfc in Hfc'. injection Hfc' as <- <-.
    destruct (IH _ _ _ _ _ _ _ Hrec Hc) as [Hq Hqc].
    split.
    + intros Hs. apply Hq, elem_of_union. right. by apply Hsub.
    + intros [->|Hqc']%elem_of_cons; [|done].
      apply Hq, elem_of_union. left. by apply elem_of_singleton.
Qed.

(** A walk that goes down a chain to a reference to a path that is visited
    or on the chain ends in the recursive reference error. *)
Lemma entersChain_rejected c :
  ∀ fuel q f args infos seen,
    entersChain rangeOrder files flagSetParse fuel c q f args infos seen →
    q ∈ seen ∨ q ∈ c →
    buildRec' fuel f args infos seen = Err (RecursiveReferenceError q).
Proof.
  induction c as [|p c IH]; intros fuel q f args infos seen Henter Hq.
  - destruct Henter as (pre & post & w & Hpre & ->).
    destruct Hq as [Hq|Hq]; [|by apply elem_of_nil in Hq].
    pose proof (buildRec_seen_mono _ _ _ _ _ _ Hpre) as Hmono.
    destruct fuel as [|d]; [done|]. cbn in Hpre |- *.
    apply bind_Ok in Hpre as [infos0 [Hparse Hloop]]. rewrite Hparse. cbn.
    rewrite buildLoop_app, Hloop. destruct w as [[[paths f1] infos1] seen1].
    apply buildLoop_visited. by apply Hmono.
  - destruct Henter
      as (pre & post & w & Hpre & -> & Hp & sub & subArgs & Hfc & Hsub).
    pose proof (buildRec_seen_mono _ _ _ _ _ _ Hpre) as Hmono.
    destruct fuel as [|d]; [done|]. cbn [pred] in Hsub. cbn in Hpre |- *.
    apply bind_Ok in Hpre as [infos0 [Hparse Hloop]]. rewrite Hparse. cbn.
    rewrite buildLoop_app, Hloop. destruct w as [[[paths f1] infos1] seen1].
    cbn in Hp, Hsub, Hmono |- *.
    rewrite decide_False by (intros ?; done). rewrite decide_False by done.
    unfold fileContents in Hfc.
    destruct (files !! p) as [data|]; [|done].
    destruct (flagSetParse p _) as [err|r]; [done|]. injection Hfc as ->.
    rewrite (IH d q sub subArgs infos1 ({[p]} ∪ seen1)); [done|done|].
    destruct Hq as [Hq|[->|Hq]%elem_of_cons].
    + left. apply elem_of_union. right. by apply Hmono.
    + left. apply elem_of_union. left. by apply elem_of_singleton.
    + by right.
Qed.

(** C4, amended: when an argument file [q] references itself through a
    chain of argument files of any length, reached from the argument
    vector through any further files, the resolution does not succeed; and
    when the walk goes down the chain to the repeated reference, it fails
    with the recursive reference error naming [q]. *)
Theorem cyclic_reference_rejected (f : flagsBuilder) (args : list string)
    (c : list string) (q : string) :
  refChain files flagSetParse c q args → q ∈ c →
  (∀ e, Build' f args ≠ Ok e)
  ∧ (entersChain rangeOrder files flagSetParse (S (size files)) c q f args ∅ ∅ →
     Build' f args = Err (RecursiveReferenceError q)).
Proof.
  intros Hc Hq. split.
  - intros e (paths & f1 & infos & seen & Hrec & _)%Build_Ok_inv.
    by destruct (buildRec_acyclic _ _ _ _ _ _ _ _ Hrec Hc).
  - intros Henter. unfold Build.
    rewrite (entersChain_rejected c _ q f args ∅ ∅ Henter); [done|by right].
Qed.

(** *** Defaults *)

(** C10: a resolved environment has a non-empty include-directory list
    and a non-empty error format. The list is the include directories given
    along the expansion chain, or ["."] if none was given anywhere; the
    error format is "gcc" if none was given anywhere. *)
Theorem defaults_filled (f : flagsBuilder) (args : list string) (e : env) :
  Build' f args = Ok e →
  let chain := f :: chainBuilders' (S (size files)) args in
  let dirs := flat_map (λ b, IncludeDirPaths (fbFlags b)) chain in
  IncludeDirPaths (envFlags e) ≠ []
  ∧ ErrorFormat (envFlags e) ≠ ""
  ∧ IncludeDirPaths (envFlags e) = (if decide (dirs = []) then ["."] else dirs)
  ∧ (Forall (λ b, ErrorFormat (fbFlags b) = "") chain →
     ErrorFormat (envFlags e) = "gcc").
Proof.
  intros (paths & f1 & infos & seen & Hrec & _ & _ & _ & ->)%Build_Ok_inv.
  apply buildRec_Ok in Hrec as (_ & _ & ->). intros chain dirs.
  cbn [envFlags]. unfold withDefaults.
  rewrite IncludeDirPaths_foldl_merge. fold chain. fold dirs.
  assert (length dirs = 0%nat ↔ dirs = []) as Hlen
    by (destruct dirs; cbn; split; (done || lia)).
  split; [|split; [|split]].
  - repeat case_decide; cbn; try done; rewrite ?IncludeDirPaths_foldl_merge;
      fold chain; fold dirs; tauto.
  - repeat case_decide; cbn in *; try done.
  - repeat case_decide; cbn; try done; rewrite ?IncludeDirPaths_foldl_merge;
      fold chain; fold dirs; tauto.
  - intros Hall. apply ErrorFormat_foldl_merge in Hall.
    repeat case_decide; cbn in *; try done.
Qed.

(** *** [Build] is total *)

Lemma buildLoop_not_OutOfFuel d rec :
  (∀ f args infos seen,
     (size (dom files ∖ seen) < d)%nat → rec f args infos seen ≠ OutOfFuel) →
  (∀ f args infos seen w, rec f args infos seen = Ok w → seen ⊆ w.2) →
  ∀ args paths f infos seen,
    (size (dom files ∖ seen) < S d)%nat →
    buildLoop files flagSetParse rec args paths f infos seen ≠ OutOfFuel.
Proof.
  intros Htotal Hmono args.
  induction args as [|a args IH]; intros paths f infos seen Hsize; [done|].
  cbn. destruct a as [|c p]; [done|].
  case_decide; [by apply IH|]. case_decide as Hseen; [done|].
  destruct (files !! p) as [data|] eqn:Hfile; [|done].
  destruct (flagSetParse p _) as [err|[sub subArgs]]; [done|].
  assert (size (dom files ∖ ({[p]} ∪ seen)) < size (dom files ∖ seen))%nat
    as Hless.
  { apply subset_size. apply strict_spec_alt. split.
    - intros x. set_unfold. tauto.
    - intros Heq. assert (p ∈ dom files ∖ seen) as Hp.
      { apply elem_of_difference. split; [|done].
        apply elem_of_dom. by rewrite Hfile. }
      rewrite <- Heq in Hp. set_unfold in Hp. tauto. }
  destruct (rec sub subArgs infos _) as [[[[sp sf] si] ss]| | |] eqn:Hsub;
    cbn; try done.
  - apply IH. apply Hmono in Hsub. cbn in Hsub.
    assert (size (dom files ∖ ss) ≤ size (dom files ∖ ({[p]} ∪ seen)))%nat.
    { apply subseteq_size. intros x. set_unfold. intros [? ?]. split; [done|].
      intros Hx. by apply Hsub in Hx. }
    lia.
  - intros _. eapply Htotal; [|exact Hsub]. lia.
Qed.

Lemma buildRec_not_OutOfFuel fuel f args infos seen :
  (size (dom files ∖ seen) < fuel)%nat →
  buildRec' fuel f args infos seen ≠ OutOfFuel.
Proof.
  revert f args infos seen.
  induction fuel as [|d IH]; intros f args infos seen Hsize; [lia|].
  cbn. destruct (parsePlugins f infos) eqn:Hparse; cbn; try done.
  - apply (buildLoop_not_OutOfFuel d); [done| |done].
    intros f0 args0 infos0 seen0 w Hw. by apply buildRec_seen_mono in Hw.
  - intros _. by eapply parsePlugins_not_OutOfFuel.
Qed.

(** The recursion bound of [Build] is never reached: the resolution returns
    an environment, an error, or panics on an index out of range. *)
Theorem Build_total (f : flagsBuilder) (args : list string) :
  Build' f args ≠ OutOfFuel.
Proof.
  unfold Build.
  destruct (buildRec' (S (size files)) f args ∅ ∅)
    as [[[[paths f1] infos] seen]| | |] eqn:Hrec; cbn; try done.
  - destruct (checkUnsupported f1) eqn:Hun; cbn; try done.
    + destruct (forEach checkPluginInfo _ ()) eqn:Hchk; cbn; try done.
      * by case_decide.
      * intros _. eapply forEach_not_OutOfFuel; [|exact Hchk].
        intros [n i] []. cbn. by repeat case_decide.
    + intros _. by eapply checkUnsupported_not_OutOfFuel.
  - intros _. eapply buildRec_not_OutOfFuel; [|exact Hrec].
    assert (size (dom files ∖ (∅ : gset string)) ≤ size (dom files))%nat
      by (apply subseteq_size; set_unfold; tauto).
    rewrite size_dom in *. lia.
Qed.

End ExpansionFacts.

(** ** Resolution of the plugin directives and paths *)

Section DirectiveFacts.

Context (rangeOrder : ∀ V : Type, gmap string V → list (string * V)).

(** Whatever order the run time picks, a [range] visits every entry of the
    map once. *)
Hypothesis rangeOrder_perm :
  ∀ (V : Type) (m : gmap string V), rangeOrder V m ≡ₚ map_to_list m.

Local Abbreviation parsePlugins := (parsePluginNameToPluginInfo rangeOrder).

Lemma rangeOrder_singleton {V} (k : string) (v : V) :
  rangeOrder V {[k := v]} = [(k, v)].
Proof.
  apply Permutation_singleton_r. rewrite rangeOrder_perm.
  by rewrite map_to_list_singleton.
Qed.

Lemma rangeOrder_empty {V} : rangeOrder V ∅ = [].
Proof.
  apply Permutation_nil_r. rewrite rangeOrder_perm.
  by rewrite map_to_list_empty.
Qed.

Lemma elem_of_rangeOrder {V} (m : gmap string V) k v :
  (k, v) ∈ rangeOrder V m ↔ m !! k = Some v.
Proof. rewrite rangeOrder_perm. apply elem_of_map_to_list. Qed.

Lemma parsePlugins_withPluginPaths vs infos :
  parsePlugins (withPluginPaths vs) infos = forEach pluginPathValueStep vs infos.
Proof.
  unfold parsePluginNameToPluginInfo. cbn. by rewrite rangeOrder_empty.
Qed.

(** Resolution of a builder with no plugin paths and the single directive
    entry [name]. *)
Lemma parsePlugins_single fl fake name pv infos :
  parsePlugins
    (mkFlagsBuilder fl [] "" "" false [] fake {[name := pv]}) infos
  = pluginValueStep
      (mkFlagsBuilder fl [] "" "" false [] fake {[name := pv]}) name pv infos.
Proof.
  unfold parsePluginNameToPluginInfo. cbn [pluginNameToValue PluginPathValues].
  rewrite rangeOrder_singleton. cbn.
  by destruct (pluginValueStep _ name pv infos).
Qed.

(** *** Explicit plugin paths *)


(** *** Out and opt directives *)

(** The entries of a map, one of them first. *)
Lemma rangeOrder_insert {V} (m : gmap string V) k v :
  rangeOrder V (<[k := v]> m) ≡ₚ (k, v) :: map_to_list (delete k m).
Proof.
  rewrite rangeOrder_perm, <- insert_delete_eq.
  apply map_to_list_insert, lookup_delete_eq.
Qed.

Lemma forEach_Permutation_iff {V S : Type}
    (body : string * V → S → result S) (l1 l2 : list (string * V)) s s' :
  (∀ a b t t1 t2, a.1 ≠ b.1 → body a t = Ok t1 → body b t1 = Ok t2 →
     ∃ t1', body b t = Ok t1' ∧ body a t1' = Ok t2) →
  l1 ≡ₚ l2 → NoDup l1.*1 →
  forEach body l1 s = Ok s' ↔ forEach body l2 s = Ok s'.
Proof.
  intros Hswap Hperm Hnd. split; apply forEach_Permutation; try done.
  by rewrite <- Hperm.
Qed.

(** Resolution of a builder that extends [f] by values appended to
    [pluginFake] and by the entry [pv] recorded for [name]: the entry of
    [name] can be taken first, and the other entries resolve as in [f]. *)
Lemma parsePlugins_recorded f ext name pv infos r :
  wellIndexed f →
  let g := mkFlagsBuilder (fbFlags f) (PluginPathValues f) (Encode f)
             (Decode f) (DecodeRaw f) (DescriptorSetIn f)
             (pluginFake f ++ ext) (<[name := pv]> (pluginNameToValue f)) in
  parsePlugins g infos = Ok r ↔
  ∃ s s', pluginValueStep g name pv infos = Ok s
    ∧ forEach (λ '(n, pv), pluginValueStep f n pv)
        (map_to_list (delete name (pluginNameToValue f))) s = Ok s'
    ∧ forEach pluginPathValueStep (PluginPathValues f) s' = Ok r.
Proof.
  intros Hf g. unfold parsePluginNameToPluginInfo.
  cbn [pluginNameToValue PluginPathValues g].
  rewrite bind_Ok.
  assert (∀ s', forEach (λ '(n, pv0), pluginValueStep g n pv0)
                  (rangeOrder _ (<[name := pv]> (pluginNameToValue f))) infos
                = Ok s'
                ↔ ∃ s, pluginValueStep g name pv infos = Ok s
                    ∧ forEach (λ '(n, pv0), pluginValueStep f n pv0)
                        (map_to_list (delete name (pluginNameToValue f))) s
                      = Ok s') as Hloop.
  { intros s'.
    rewrite (forEach_Permutation_iff _ _
               ((name, pv) :: map_to_list (delete name (pluginNameToValue f))));
      [| |apply rangeOrder_insert|].
    - cbn. rewrite bind_Ok.
      assert (∀ s, forEach (λ '(n, pv0), pluginValueStep g n pv0)
                     (map_to_list (delete name (pluginNameToValue f))) s
                   = forEach (λ '(n, pv0), pluginValueStep f n pv0)
                       (map_to_list (delete name (pluginNameToValue f))) s)
        as Hext.
      { intros s. apply forEach_ext. intros [n pv0] s0 Hin.
        apply elem_of_map_to_list in Hin.
        apply lookup_delete_Some in Hin as [_ Hin].
        destruct (Hf n pv0 Hin) as [Ho Hp].
        apply pluginValueStep_fake; intros ?; cbn;
          apply lookup_app_l; lia. }
      by setoid_rewrite Hext.
    - intros [n1 pv1] [n2 pv2] t t1 t2 Hne Ha Hb.
      by apply (pluginValueStep_swap g n1 pv1 n2 pv2 t t1 t2).
    - rewrite rangeOrder_perm. apply NoDup_fst_map_to_list. }
  split.
  - intros (s' & Hs' & Hr). apply Hloop in Hs' as (s & Hs & Hs').
    by exists s, s'.
  - intros (s & s' & Hs & Hs' & Hr). exists s'. split; [|done].
    apply Hloop. by exists s.
Qed.

(** Steps for other plugins and plugin path steps keep the output location
    and the options of [name]. *)
Lemma forEach_others_keep f name l s s' :
  Forall (λ e : string * pluginValue, e.1 ≠ name) l →
  forEach (λ '(n, pv), pluginValueStep f n pv) l s = Ok s' →
  infoOf s' name = infoOf s name.
Proof.
  intros Hl. revert s. induction Hl as [|[n pv] l Hn _ IH]; intros s.
  - by intros [= <-].
  - cbn. intros [t [Ht Hrest]]%bind_Ok. rewrite (IH _ Hrest).
    rewrite pluginValueStep_directiveInfo in Ht.
    apply bind_Ok in Ht as (r & _ & [= <-]). by apply infoOf_update_ne.
Qed.

Lemma pluginPathValueStep_keeps v s s' name :
  pluginPathValueStep v s = Ok s' →
  Out (infoOf s' name) = Out (infoOf s name)
  ∧ Opt (infoOf s' name) = Opt (infoOf s name).
Proof.
  unfold pluginPathValueStep. intros [[n p] [_ H]]%bind_Ok.
  destruct (negb _); [done|]. case_decide; [done|]. injection H as <-.
  destruct (decide (TrimPrefix n "protoc-gen-" = name)) as [<-|Hne].
  - by rewrite infoOf_insert.
  - by rewrite infoOf_insert_ne.
Qed.

Lemma forEach_paths_keep l s s' name :
  forEach pluginPathValueStep l s = Ok s' →
  Out (infoOf s' name) = Out (infoOf s name)
  ∧ Opt (infoOf s' name) = Opt (infoOf s name).
Proof.
  revert s. induction l as [|v l IH]; intros s.
  - by intros [= <-].
  - cbn. intros [t [Ht Hrest]]%bind_Ok.
    destruct (IH _ Hrest) as [-> ->]. by eapply pluginPathValueStep_keeps.
Qed.



Section WholeResolution.

Context (files : gmap string string).
Context (flagSetParse :
           string → list string → error + (flagsBuilder * list string)).

Local Abbreviation buildRec' := (buildRec rangeOrder files flagSetParse).
Local Abbreviation Build' := (Build rangeOrder files flagSetParse).


(** *** The cross-check of the plugin table *)


End WholeResolution.

End DirectiveFacts.

(** ** The theorems at concrete inputs *)

Lemma listOrder_perm (V : Type) (m : gmap string V) :
  listOrder V m ≡ₚ map_to_list m.
Proof. reflexivity. Qed.





(** Two files that reference each other, run through the example flag
    set. *)
Example cycle_files_run :
  FlagSet.run {["a" := "x.proto" +:+ lf +:+ "@b"; "b" := "@a"]} ["@a"]
  = Err (RecursiveReferenceError "a").
Proof. vm_compute. reflexivity. Qed.

Lemma input_paths_order_witness :
  let files : gmap string string := {["args.txt" := "y.proto" +:+ lf]} in
  let f := FlagSet.setBool "include_imports" true newFlagsBuilder in
  let args := ["x.proto"; "@args.txt"] in
  let e := mkEnv (mkFlags ["."] true false false "" "gcc") ∅
             ["x.proto"; "y.proto"] in
  Build listOrder files FlagSet.flagSetParse f args = Ok e
  ∧ FilePaths e = inputPaths files FlagSet.flagSetParse (S (size files)) args.
Proof.
  intros files f args e.
  assert (Build listOrder files FlagSet.flagSetParse f args = Ok e) as H
    by (vm_compute; reflexivity).
  split; [exact H|].
  exact (proj1 (input_paths_order listOrder files FlagSet.flagSetParse f args e H)).
Defined.


(** A file that references itself and holds an out directive with two
    colons: the resolution fails with the error of the directive, where C4
    as stated has it fail with the recursive reference error. *)
Lemma self_reference_other_error :
  let files : gmap string string :=
    {["a" := "--foo_out=a:b:c" +:+ lf +:+ "@a"]} in
  refChain files FlagSet.flagSetParse ["a"] "a" ["@a"]
  ∧ FlagSet.run files ["@a"] = Err (OutMultipleColonsError "foo" "a:b:c")
  ∧ FlagSet.run files ["@a"] ≠ Err (RecursiveReferenceError "a").
Proof.
  intros files. split; [|split; [vm_compute; reflexivity|vm_compute; discriminate]].
  split; [by left|].
  exists (withDirectives ["a:b:c"] {["foo" := mkPluginValue 0 (-1)]}), ["@a"].
  split; [vm_compute; reflexivity|by left].
Qed.

(** The argument vector references [x], [x] references [a], and [a], which
    holds an out directive, references itself after a plain token. *)
Lemma cyclic_reference_rejected_witness :
  let files : gmap string string :=
    {["x" := "@a";
      "a" := "--foo_out=o" +:+ lf +:+ "y.proto" +:+ lf +:+ "@a"]} in
  let args := ["w.proto"; "@x"] in
  refChain files FlagSet.flagSetParse ["x"; "a"] "a" args
  ∧ entersChain listOrder files FlagSet.flagSetParse (S (size files))
      ["x"; "a"] "a" newFlagsBuilder args ∅ ∅
  ∧ Build listOrder files FlagSet.flagSetParse newFlagsBuilder args
    = Err (RecursiveReferenceError "a").
Proof.
  intros files args.
  set (sub := withDirectives ["o"] {["foo" := mkPluginValue 0 (-1)]}).
  assert (fileContents files FlagSet.flagSetParse "x"
          = Some (newFlagsBuilder, ["@a"])) as Hx by (vm_compute; reflexivity).
  assert (fileContents files FlagSet.flagSetParse "a"
          = Some (sub, ["y.proto"; "@a"])) as Ha by (vm_compute; reflexivity).
  assert (refChain files FlagSet.flagSetParse ["x"; "a"] "a" args) as Hchain.
  { split; [apply list_elem_of_In; right; left; reflexivity|].
    exists newFlagsBuilder, ["@a"]. split; [exact Hx|].
    split; [apply list_elem_of_In; left; reflexivity|].
    exists sub, ["y.proto"; "@a"]. split; [exact Ha|].
    apply list_elem_of_In. right. left. reflexivity. }
  assert (entersChain listOrder files FlagSet.flagSetParse (S (size files))
            ["x"; "a"] "a" newFlagsBuilder args ∅ ∅) as Henter.
  { exists ["w.proto"], [], (["w.proto"], newFlagsBuilder, ∅, ∅).
    split; [vm_compute; reflexivity|]. split; [reflexivity|].
    split; [apply not_elem_of_empty|].
    exists newFlagsBuilder, ["@a"]. split; [exact Hx|].
    exists [], [], ([], newFlagsBuilder, ∅, {["x"]}).
    split; [vm_compute; reflexivity|]. split; [reflexivity|].
    split; [cbn; intros H; apply elem_of_singleton in H; discriminate|].
    exists sub, ["y.proto"; "@a"]. split; [exact Ha|].
    exists ["y.proto"], [],
      (["y.proto"], sub, {["foo" := mkPluginInfo "o" "" ""]}, {["a"; "x"]}).
    split; [vm_compute; reflexivity|reflexivity]. }
  split; [exact Hchain|]. split; [exact Henter|].
  apply (cyclic_reference_rejected listOrder files FlagSet.flagSetParse
           newFlagsBuilder args ["x"; "a"] "a" Hchain).
  - apply list_elem_of_In. right. left. reflexivity.
  - exact Henter.
Defined.






Lemma defaults_filled_witness :
  let files : gmap string string :=
    {["args.txt" := "--proto_path=inc" +:+ lf +:+ "y.proto"]} in
  let e := mkEnv (mkFlags ["inc"] false false false "" "gcc") ∅ ["y.proto"] in
  Build listOrder files FlagSet.flagSetParse newFlagsBuilder ["@args.txt"] = Ok e
  ∧ IncludeDirPaths (envFlags e) ≠ []
  ∧ ErrorFormat (envFlags e) ≠ "".
Proof.
  intros files e.
  assert (Build listOrder files FlagSet.flagSetParse newFlagsBuilder
            ["@args.txt"] = Ok e) as H by (vm_compute; reflexivity).
  split; [exact H|].
  destruct (defaults_filled listOrder files FlagSet.flagSetParse
              newFlagsBuilder ["@args.txt"] e H) as (H1 & H2 & _).
  split; [exact H1|exact H2].
Defined.

(** ** Further runs from the specification's list of properties *)

Example run_blank_lines :
  FlagSet.run {["args.txt" := lf +:+ "  " +:+ lf +:+ "a.proto" +:+ lf +:+ lf]}
    ["@args.txt"]
  = Ok (mkEnv (mkFlags ["."] false false false "" "gcc") ∅ ["a.proto"]).
Proof. vm_compute. reflexivity. Qed.

Example run_no_input_files :
  FlagSet.run ∅ ["--include_imports"] = Err errNoInputFiles.
Proof. vm_compute. reflexivity. Qed.

Example run_opt_without_out :
  FlagSet.run ∅ ["--foo_opt=x"; "a.proto"]
  = Err (CannotSpecifyOptWithoutOutError "foo").
Proof. vm_compute. reflexivity. Qed.

Example run_duplicate_out_across_files :
  FlagSet.run {["a" := "--foo_out=x" +:+ lf +:+ "x.proto"; "b" := "--foo_out=y"]}
    ["@a"; "@b"]
  = Err (DuplicateOutError "foo").
Proof. vm_compute. reflexivity. Qed.

Example run_defaults_when_nothing_given :
  FlagSet.run {["a" := "x.proto"]} ["@a"]
  = Ok (mkEnv (mkFlags ["."] false false false "" "gcc") ∅ ["x.proto"]).
Proof. vm_compute. reflexivity. Qed.

(** * Further properties of the code *)

(** ** The resolution does not depend on the map order *)

Section OrderIndependence.

Context (order1 order2 : ∀ V : Type, gmap string V → list (string * V)).
Context (files : gmap string string).
Context (flagSetParse :
           string → list string → error + (flagsBuilder * list string)).

Hypothesis order1_perm :
  ∀ (V : Type) (m : gmap string V), order1 V m ≡ₚ map_to_list m.
Hypothesis order2_perm :
  ∀ (V : Type) (m : gmap string V), order2 V m ≡ₚ map_to_list m.

Lemma parsePlugins_order f infos infos' :
  parsePluginNameToPluginInfo order1 f infos = Ok infos' →
  parsePluginNameToPluginInfo order2 f infos = Ok infos'.
Proof using order1_perm order2_perm.
  unfold parsePluginNameToPluginInfo. intros [s [H1 H2]]%bind_Ok.
  rewrite (forEach_Permutation _ (order1 _ (pluginNameToValue f))
             (order2 _ (pluginNameToValue f)) infos s); [done| | | |done].
  - intros [n1 pv1] [n2 pv2] t t1 t2 Hne Ha Hb.
    by apply (pluginValueStep_swap f n1 pv1 n2 pv2 t t1 t2).
  - by rewrite order1_perm, order2_perm.
  - rewrite order1_perm. apply NoDup_fst_map_to_list.
Qed.

Lemma buildRec_order fuel f args infos seen w :
  buildRec order1 files flagSetParse fuel f args infos seen = Ok w →
  buildRec order2 files flagSetParse fuel f args infos seen = Ok w.
Proof using order1_perm order2_perm.
  revert f args infos seen w.
  induction fuel as [|d IH]; intros f args infos seen w; [done|].
  cbn. intros [infos1 [Hparse Hloop]]%bind_Ok.
  rewrite (parsePlugins_order _ _ _ Hparse). cbn. clear Hparse.
  revert Hloop. generalize (@nil string) as paths. revert f infos1 seen.
  induction args as [|a args IHargs]; intros f infos1 seen paths; [done|].
  cbn. destruct a as [|c p]; [done|].
  case_decide; [apply IHargs|]. case_decide; [done|].
  destruct (files !! p); [|done].
  destruct (flagSetParse p _) as [err|[sub subArgs]]; [done|].
  intros [[[[sp sf] si] ss] [Hsub Hrest]]%bind_Ok.
  rewrite (IH _ _ _ _ _ Hsub). cbn. by apply IHargs.
Qed.

(** The resolved environment does not depend on the order in which the
    run time visits the entries of the two maps: a resolution that
    succeeds under one order succeeds with the same environment under
    every other. *)
Theorem Build_order_independent (f : flagsBuilder) (args : list string)
    (e : env) :
  Build order1 files flagSetParse f args = Ok e →
  Build order2 files flagSetParse f args = Ok e.
Proof using order1_perm order2_perm.
  unfold Build. intros [[[[paths f1] infos] seen] [Hrec H]]%bind_Ok.
  apply bind_Ok in H as [[] [Hun H]]. apply bind_Ok in H as [[] [Hchk H]].
  rewrite (buildRec_order _ _ _ _ _ _ Hrec). cbn. rewrite Hun. cbn.
  rewrite (forEach_Permutation checkPluginInfo (order1 _ infos)
             (order2 _ infos) () ()); [done| | | |done].
  - intros a b [] [] [] _ Ha Hb. exists (). by split.
  - by rewrite order1_perm, order2_perm.
  - rewrite order1_perm. apply NoDup_fst_map_to_list.
Qed.

End OrderIndependence.

(** ** How [merge] composes *)

(** Merging is associative and a builder without flags is neutral on the
    right; merged into a fresh builder from the left, a builder keeps its
    options (its directive capture is not carried over). *)
Theorem merge_monoid (f g h : flagsBuilder) :
  merge f (merge g h) = merge (merge f g) h
  ∧ merge f newFlagsBuilder = f
  ∧ fbFlags (merge newFlagsBuilder f) = fbFlags f
  ∧ pluginFake (merge f g) = pluginFake f
  ∧ pluginNameToValue (merge f g) = pluginNameToValue f.
Proof.
  split; [apply merge_assoc|]. split; [|split; [|done]].
  - destruct f as [[dirs i1 i2 i3 out ef] paths enc dec raw dsi fake values].
    unfold merge. cbn. by rewrite !app_nil_r.
  - destruct f as [[dirs i1 i2 i3 out ef] paths enc dec raw dsi fake values].
    unfold merge. cbn.
    destruct i1, i2, i3; repeat case_decide; congruence.
Qed.

Lemma Encode_foldl_merge f l :
  Encode (foldl merge f l) = "" ↔ Forall (λ b, Encode b = "") (f :: l).
Proof.
  revert f. induction l as [|g l IH]; intros f; cbn.
  - rewrite Forall_singleton. done.
  - rewrite IH, !Forall_cons. cbn. case_decide; intuition congruence.
Qed.

Lemma Decode_foldl_merge f l :
  Decode (foldl merge f l) = "" ↔ Forall (λ b, Decode b = "") (f :: l).
Proof.
  revert f. induction l as [|g l IH]; intros f; cbn.
  - rewrite Forall_singleton. done.
  - rewrite IH, !Forall_cons. cbn. case_decide; intuition congruence.
Qed.

Lemma DecodeRaw_foldl_merge f l :
  DecodeRaw (foldl merge f l) = false
  ↔ Forall (λ b, DecodeRaw b = false) (f :: l).
Proof.
  revert f. induction l as [|g l IH]; intros f; cbn.
  - rewrite Forall_singleton. done.
  - rewrite IH, !Forall_cons. cbn.
    destruct (DecodeRaw g), (DecodeRaw f); intuition congruence.
Qed.

Lemma DescriptorSetIn_foldl_merge f l :
  DescriptorSetIn (foldl merge f l) = []
  ↔ Forall (λ b, DescriptorSetIn b = []) (f :: l).
Proof.
  revert f. induction l as [|g l IH]; intros f; cbn.
  - rewrite Forall_singleton. done.
  - rewrite IH, !Forall_cons. cbn. rewrite app_nil. tauto.
Qed.

Lemma forEach_not_Panic {A S} (body : A → S → result S) l s :
  (∀ a s0, a ∈ l → body a s0 ≠ Panic) → forEach body l s ≠ Panic.
Proof.
  revert s. induction l as [|a l IH]; intros s Hb; [done|].
  cbn. pose proof (Hb a s ltac:(by left)) as Ha.
  destruct (body a s); cbn; try done.
  apply IH. intros b s0 Hin. apply Hb. by right.
Qed.

Lemma pluginValueStep_not_Panic f name pv infos :
  OutIndex pv < Z.of_nat (length (pluginFake f)) →
  OptIndex pv < Z.of_nat (length (pluginFake f)) →
  pluginValueStep f name pv infos ≠ Panic.
Proof.
  intros Hout Hopt. unfold pluginValueStep.
  assert (∀ i, 0 ≤ i → i < Z.of_nat (length (pluginFake f)) →
               is_Some (pluginFake f !! Z.to_nat i)) as Hin
    by (intros i ??; apply lookup_lt_is_Some; lia).
  destruct (decide (0 ≤ OutIndex pv)) as [H0|H0]; cbn.
  - destruct (Hin _ H0 Hout) as [raw ->].
    destruct (Split raw ":"%char) as [|x [|y [|z l]]]; cbn; try done;
      repeat (case_decide; cbn; rewrite ?infoOf_insert; try done);
      by destruct (Hin (OptIndex pv)) as [v ->].
  - case_decide; [|done]. case_decide; [done|].
    by destruct (Hin (OptIndex pv)) as [v ->].
Qed.

Lemma pluginPathValueStep_not_Panic v infos :
  pluginPathValueStep v infos ≠ Panic.
Proof.
  unfold pluginPathValueStep.
  destruct (SplitN2 v "="%char) as [|x [|y [|z l]]]; cbn; try done;
    destruct (HasPrefix _ _); cbn; try done; by case_decide.
Qed.

(** The converse of [HasSuffix_app]. *)
Lemma substring_split s k :
  (k ≤ String.length s)%nat →
  String.substring 0 k s +:+ String.substring k (String.length s - k) s = s.
Proof.
  revert k. induction s as [|c s IH]; intros k Hk.
  - destruct k; [done|cbn in Hk; lia].
  - destruct k as [|k]; cbn.
    + by rewrite substring_all.
    + rewrite app_cons. rewrite IH; [done|]. cbn in Hk. lia.
Qed.

Lemma HasSuffix_inv s suffix :
  HasSuffix s suffix = true → s = TrimSuffix s suffix +:+ suffix.
Proof.
  intros H. unfold TrimSuffix. rewrite H. unfold HasSuffix in H.
  apply andb_true_iff in H as [Hlen Heq].
  apply bool_decide_eq_true in Hlen. apply bool_decide_eq_true in Heq.
  unfold slice in *. rewrite Nat.sub_0_r.
  pose proof (substring_split s (String.length s - String.length suffix)
                ltac:(lia)) as Hsplit.
  by rewrite Heq in Hsplit.
Qed.

Lemma Count_ReplaceAll s old new :
  old ≠ new → Count (ReplaceAll s old new) old = 0%nat.
Proof.
  intros Hne. induction s as [|c s IH]; [done|]. cbn. rewrite IH.
  destruct (decide (c = old)); [by rewrite decide_False|by rewrite decide_False].
Qed.

(** [Normalize] captures exactly the names [p_out], other than
    [descriptor_set_out], and [p_opt]: it records the occurrence under the
    plugin [p] at the position the value is about to take, and binds the
    flag to the fake name. Any other name only has its hyphens replaced
    and leaves the builder as it is. The name returned never holds a
    hyphen. *)
Theorem Normalize_cases (name : string) (f : flagsBuilder) :
  Count (Normalize name f).1 "-"%char = 0%nat
  ∧ ((∃ p, name = p +:+ "_out" ∧ name ≠ "descriptor_set_out"
        ∧ Normalize name f
          = (pluginFakeFlagName,
             mkFlagsBuilder (fbFlags f) (PluginPathValues f) (Encode f)
               (Decode f) (DecodeRaw f) (DescriptorSetIn f) (pluginFake f)
               (<[p := mkPluginValue (Z.of_nat (length (pluginFake f)))
                         (OptIndex (default newPluginValue
                                      (pluginNameToValue f !! p)))]>
                  (pluginNameToValue f))))
     ∨ (∃ p, name = p +:+ "_opt"
        ∧ Normalize name f
          = (pluginFakeFlagName,
             mkFlagsBuilder (fbFlags f) (PluginPathValues f) (Encode f)
               (Decode f) (DecodeRaw f) (DescriptorSetIn f) (pluginFake f)
               (<[p := mkPluginValue
                         (OutIndex (default newPluginValue
                                      (pluginNameToValue f !! p)))
                         (Z.of_nat (length (pluginFake f)))]>
                  (pluginNameToValue f))))
     ∨ ((name = "descriptor_set_out"
         ∨ ∀ p, name ≠ p +:+ "_out" ∧ name ≠ p +:+ "_opt")
        ∧ Normalize name f = (ReplaceAll name "-"%char "_"%char, f))).
Proof.
  unfold Normalize.
  destruct (decide (name = "descriptor_set_out")) as [->|Hne].
  { split; [done|]. right. right. split; [by left|done]. }
  rewrite bool_decide_eq_true_2 by done. cbn.
  destruct (HasSuffix name "_out") eqn:Hout.
  - split; [done|]. left. exists (TrimSuffix name "_out").
    split; [by apply HasSuffix_inv|done].
  - destruct (HasSuffix name "_opt") eqn:Hopt.
    + split; [done|]. right. left. exists (TrimSuffix name "_opt").
      split; [by apply HasSuffix_inv|done].
    + split; [by apply Count_ReplaceAll|]. right. right. split; [|done].
      right. intros p. split; intros ->.
      * by rewrite HasSuffix_app in Hout.
      * by rewrite HasSuffix_app in Hopt.
Qed.

(** ** Further properties of the expansion *)

Section MoreExpansionFacts.

Context (rangeOrder : ∀ V : Type, gmap string V → list (string * V)).
Context (files : gmap string string).
Context (flagSetParse :
           string → list string → error + (flagsBuilder * list string)).

Local Abbreviation parsePlugins := (parsePluginNameToPluginInfo rangeOrder).
Local Abbreviation buildRec' := (buildRec rangeOrder files flagSetParse).
Local Abbreviation Build' := (Build rangeOrder files flagSetParse).
Local Abbreviation inputPaths' := (inputPaths files flagSetParse).
Local Abbreviation chainBuilders' := (chainBuilders files flagSetParse).

Lemma buildLoop_infos d rec :
  (∀ f args infos seen w,
     rec f args infos seen = Ok w →
     forEach parsePlugins (f :: chainBuilders' d args) infos = Ok w.1.2) →
  ∀ args paths f infos seen w,
    buildLoop files flagSetParse rec args paths f infos seen = Ok w →
    forEach parsePlugins (chainBuilders' (S d) args) infos = Ok w.1.2.
Proof.
  intros Hrec args.
  induction args as [|a args IH]; intros paths f infos seen w.
  - cbn. by intros [= <-].
  - cbn [buildLoop]. destruct a as [|c p]; [done|].
    case_decide as Hc.
    + intros Hw%IH.
      replace (chainBuilders' (S d) (String c p :: args))
        with (chainBuilders' (S d) args); [done|].
      cbn. destruct c as [[] [] [] [] [] [] [] []]; try done.
    + subst c. case_decide; [done|].
      destruct (files !! p) as [data|] eqn:Hfile; [|done].
      destruct (flagSetParse p _) as [err|[sub subArgs]] eqn:Hparse; [done|].
      intros [[[[sp sf] si] ss] [Hsub Hrest]]%bind_Ok.
      apply Hrec in Hsub. apply IH in Hrest. cbn in Hsub.
      change (chainBuilders' (S d) (String "@" p :: args))
        with (match fileContents files flagSetParse p with
              | Some (sub, subArgs) => sub :: chainBuilders' d subArgs
              | None => []
              end ++ chainBuilders' (S d) args).
      unfold fileContents. rewrite Hfile, Hparse.
      rewrite forEach_app. cbn. cbn in Hsub. by rewrite Hsub.
Qed.

Lemma buildRec_infos fuel f args infos seen w :
  buildRec' fuel f args infos seen = Ok w →
  forEach parsePlugins (f :: chainBuilders' fuel args) infos = Ok w.1.2.
Proof.
  revert f args infos seen w.
  induction fuel as [|d IH]; intros f args infos seen w; [done|].
  cbn [buildRec]. intros [infos1 [Hparse Hloop]]%bind_Ok.
  cbn [forEach]. rewrite Hparse. cbn.
  by apply (buildLoop_infos d _ IH) in Hloop.
Qed.

(** The plugin table of a resolved environment is what resolving the
    builders one after the other gives, each against the table the
    previous one left: first the top-level builder, then the builder of
    every argument file in the order the files are entered. The
    directives and plugin paths of a builder are therefore resolved once. *)
Theorem plugin_table_along_chain (f : flagsBuilder) (args : list string)
    (e : env) :
  Build' f args = Ok e →
  forEach parsePlugins (f :: chainBuilders' (S (size files)) args) ∅
  = Ok (PluginNameToPluginInfo e).
Proof.
  intros (paths & f1 & infos & seen & Hrec & _ & _ & _ & ->)%Build_Ok_inv.
  by apply buildRec_infos in Hrec.
Qed.

(** An unsupported flag given anywhere along the chain is rejected once
    the walk has succeeded: the error is the one of [encode] if any builder
    has it, else of [decode], else of [decode_raw], else of
    [descriptor_set_in]; a resolved environment has none of them. *)
Theorem unsupported_flags_rejected (f : flagsBuilder) (args : list string)
    (w : walk) :
  buildRec' (S (size files)) f args ∅ ∅ = Ok w →
  let chain := f :: chainBuilders' (S (size files)) args in
  (Exists (λ b, Encode b ≠ "") chain →
   Build' f args = Err EncodeNotSupportedError)
  ∧ (Forall (λ b, Encode b = "") chain → Exists (λ b, Decode b ≠ "") chain →
     Build' f args = Err DecodeNotSupportedError)
  ∧ (Forall (λ b, Encode b = "") chain → Forall (λ b, Decode b = "") chain →
     Exists (λ b, DecodeRaw b = true) chain →
     Build' f args = Err DecodeRawNotSupportedError)
  ∧ (Forall (λ b, Encode b = "") chain → Forall (λ b, Decode b = "") chain →
     Forall (λ b, DecodeRaw b = false) chain →
     Exists (λ b, DescriptorSetIn b ≠ []) chain →
     Build' f args = Err DescriptorSetInNotSupportedError)
  ∧ (∀ e, Build' f args = Ok e → Forall (λ b, ¬ usesUnsupported b) chain).
Proof.
  intros Hrec chain.
  pose proof (buildRec_Ok _ _ _ _ _ _ _ _ _ Hrec) as Hspec.
  destruct w as [[[paths f1] infos] seen]. destruct Hspec as (_ & _ & Hf1).
  fold chain in Hf1.
  pose proof (Encode_foldl_merge f (chainBuilders' (S (size files)) args)) as HE.
  pose proof (Decode_foldl_merge f (chainBuilders' (S (size files)) args)) as HD.
  pose proof (DecodeRaw_foldl_merge f (chainBuilders' (S (size files)) args))
    as HR.
  pose proof (DescriptorSetIn_foldl_merge f
                (chainBuilders' (S (size files)) args)) as HS.
  rewrite <- Hf1 in HE, HD, HR, HS. fold chain in HE, HD, HR, HS.
  assert (∀ P (l : list flagsBuilder),
            Exists (λ b, ¬ P b) l → Forall P l → False) as Hno.
  { intros P l (b & Hb & Hn)%Exists_exists Hall.
    rewrite Forall_forall in Hall. by apply Hn, Hall. }
  unfold Build. rewrite Hrec. cbn.
  split; [|split; [|split; [|split]]].
  - intros Hex.
    assert (checkUnsupported f1 = Err EncodeNotSupportedError) as ->; [|done].
    unfold checkUnsupported. rewrite decide_True; [done|].
    intros Hempty%HE. by apply (Hno _ _ Hex).
  - intros HallE Hex. apply HE in HallE.
    assert (checkUnsupported f1 = Err DecodeNotSupportedError) as ->; [|done].
    unfold checkUnsupported. rewrite decide_False by auto.
    rewrite decide_True; [done|].
    intros Hempty%HD. by apply (Hno _ _ Hex).
  - intros HallE HallD Hex. apply HE in HallE. apply HD in HallD.
    assert (checkUnsupported f1 = Err DecodeRawNotSupportedError) as ->;
      [|done].
    unfold checkUnsupported. rewrite !decide_False by auto.
    destruct (Bool.bool_dec (DecodeRaw f1) false) as [Hraw|Hraw].
    + apply HR in Hraw. exfalso.
      apply (Hno (λ b, DecodeRaw b = false) chain); [|done].
      eapply Exists_impl; [exact Hex|]. cbn. intros b -> ?. done.
    + apply not_false_is_true in Hraw. by rewrite Hraw.
  - intros HallE HallD HallR Hex.
    apply HE in HallE. apply HD in HallD. apply HR in HallR.
    assert (checkUnsupported f1 = Err DescriptorSetInNotSupportedError) as ->;
      [|done].
    unfold checkUnsupported. rewrite !decide_False by auto. rewrite HallR.
    rewrite decide_True; [done|].
    destruct (decide (DescriptorSetIn f1 = [])) as [Hin|Hin].
    + apply HS in Hin. exfalso. by apply (Hno _ _ Hex).
    + destruct (DescriptorSetIn f1); [done|cbn; lia].
  - intros e. unfold checkUnsupported.
    destruct (decide (Encode f1 ≠ "")) as [|HE']; [done|].
    destruct (decide (Decode f1 ≠ "")) as [|HD']; [done|].
    destruct (Bool.bool_dec (DecodeRaw f1) false) as [HR'|HR'];
      [|apply not_false_is_true in HR'; by rewrite HR'].
    rewrite HR'.
    destruct (decide (0 < length (DescriptorSetIn f1))%nat) as [|HS']; [done|].
    intros _. apply dec_stable in HE'. apply dec_stable in HD'.
    apply HE in HE'. apply HD in HD'. apply HR in HR'.
    assert (DescriptorSetIn f1 = []) as HS''
      by (destruct (DescriptorSetIn f1); [done|cbn in HS'; lia]).
    apply HS in HS''. rewrite Forall_forall in *.
    intros b Hb [?|[?|[?|?]]].
    + by apply HE' in Hb.
    + by apply HD' in Hb.
    + apply HR' in Hb. congruence.
    + by apply HS'' in Hb.
Qed.

(** A resolved environment has at least one input path; when the walk,
    the check of unsupported flags and the cross-check of the plugin table
    all pass and the expansion holds no input path, the resolution fails
    with the no-input-files error. *)
Theorem no_input_files (f f1 : flagsBuilder) (args paths : list string)
    (infos : gmap string pluginInfo) (seen : gset string) :
  buildRec' (S (size files)) f args ∅ ∅ = Ok (paths, f1, infos, seen) →
  checkUnsupported f1 = Ok () →
  forEach checkPluginInfo (rangeOrder _ infos) () = Ok () →
  (inputPaths' (S (size files)) args = [] →
   Build' f args = Err errNoInputFiles)
  ∧ (inputPaths' (S (size files)) args ≠ [] →
     Build' f args
     = Ok (mkEnv (withDefaults (fbFlags f1)) infos
             (inputPaths' (S (size files)) args))).
Proof.
  intros Hrec Hun Hchk.
  pose proof (buildRec_Ok _ _ _ _ _ _ _ _ _ Hrec) as (Hpaths & _). cbn in Hpaths.
  unfold Build. rewrite Hrec. cbn. rewrite Hun. cbn. rewrite Hchk. cbn.
  rewrite <- Hpaths. split; intros H.
  - rewrite H. by rewrite decide_True.
  - rewrite decide_False; [done|]. by destruct paths.
Qed.

(** An empty token reached in the argument vector is the empty-argument
    error, also as the result of [Build]; the lines handed on from an
    argument file are never empty. *)
Theorem empty_token_rejected (fuel : nat) (f : flagsBuilder)
    (pre post : list string) (infos : gmap string pluginInfo)
    (seen : gset string) (w : walk) :
  buildRec' fuel f pre infos seen = Ok w →
  buildRec' fuel f (pre ++ "" :: post) infos seen = Err errArgEmpty
  ∧ (fuel = S (size files) → infos = ∅ → seen = ∅ →
     Build' f (pre ++ "" :: post) = Err errArgEmpty)
  ∧ (∀ data, Forall (λ a, a ≠ "") (flagFileArgs data)).
Proof.
  intros Hw.
  assert (buildRec' fuel f (pre ++ "" :: post) infos seen = Err errArgEmpty)
    as Herr.
  { destruct fuel as [|d]; [done|]. cbn in Hw |- *.
    apply bind_Ok in Hw as [infos0 [Hparse Hloop]]. rewrite Hparse. cbn.
    rewrite buildLoop_app, Hloop. by destruct w as [[[? ?] ?] ?]. }
  split; [done|]. split.
  - intros -> -> ->. unfold Build. by rewrite Herr.
  - intros data. unfold flagFileArgs. apply Forall_forall.
    intros a [_ Ha]%list_elem_of_In%filter_In.
    by apply bool_decide_eq_true in Ha.
Qed.

(** A reference to a path that has not been visited and cannot be read is
    the read error, and the error of the flag set on the contents of the
    file is handed on as it is; both also as the result of [Build]. *)
Theorem unreadable_file_rejected (fuel : nat) (f : flagsBuilder)
    (pre post : list string) (infos : gmap string pluginInfo)
    (seen : gset string) (w : walk) (p : string) (err : error) :
  buildRec' fuel f pre infos seen = Ok w →
  p ∉ w.2 →
  (files !! p = None ∧ err = ReadFileError p)
  ∨ (∃ data, files !! p = Some data
             ∧ flagSetParse p (flagFileArgs data) = inl err) →
  buildRec' fuel f (pre ++ String "@" p :: post) infos seen = Err err
  ∧ (fuel = S (size files) → infos = ∅ → seen = ∅ →
     Build' f (pre ++ String "@" p :: post) = Err err).
Proof.
  intros Hw Hp Hcase.
  assert (buildRec' fuel f (pre ++ String "@" p :: post) infos seen = Err err)
    as Herr.
  { destruct fuel as [|d]; [done|]. cbn in Hw |- *.
    apply bind_Ok in Hw as [infos0 [Hparse Hloop]]. rewrite Hparse. cbn.
    rewrite buildLoop_app, Hloop. destruct w as [[[paths f1] infos1] seen1].
    cbn in Hp |- *. rewrite decide_False by (intros ?; done).
    rewrite decide_False by done.
    destruct Hcase as [[-> ->]|(data & -> & ->)]; done. }
  split; [done|]. intros -> -> ->. unfold Build. by rewrite Herr.
Qed.

End MoreExpansionFacts.

(** ** Recorded indices stay in range, and then nothing panics *)

(** [Set] leaves the recorded indices alone and appends to [pluginFake]:
    nothing for another flag, and at least one field when the fake flag is
    set to a value that is not empty. *)
Lemma setFlag_directives n value f f' :
  FlagSet.setFlag n value f = Ok f' →
  pluginNameToValue f' = pluginNameToValue f
  ∧ ∃ vs, pluginFake f' = pluginFake f ++ vs
      ∧ (n = pluginFakeFlagName → value ≠ "" → vs ≠ []).
Proof.
  unfold FlagSet.setFlag. intros H.
  assert (∀ g, Ok g = Ok f' → n ≠ pluginFakeFlagName →
            pluginNameToValue g = pluginNameToValue f →
            pluginFake g = pluginFake f →
            pluginNameToValue f' = pluginNameToValue f
            ∧ ∃ vs, pluginFake f' = pluginFake f ++ vs
                ∧ (n = pluginFakeFlagName → value ≠ "" → vs ≠ [])) as Hkeep.
  { intros g [= <-] Hn Hm Hfk. split; [done|]. exists [].
    by rewrite app_nil_r. }
  destruct (bool_decide (n ∈ FlagSet.boolFlags)) eqn:Hb.
  { apply bool_decide_eq_true in Hb.
    destruct (FlagSet.ParseBool value); [|done].
    eapply Hkeep; [exact H|..].
    - intros ->. apply list_elem_of_In in Hb. cbn in Hb.
      by repeat destruct Hb as [?|Hb].
    - unfold FlagSet.setBool. by repeat case_bool_decide.
    - unfold FlagSet.setBool. by repeat case_bool_decide. }
  repeat (case_bool_decide as Hn; [subst n|clear Hn]); try done.
  - destruct (FlagSet.readAsCSV value); cbn in H; try done.
    eapply Hkeep; [exact H|done..].
  - eapply Hkeep; [exact H|done..].
  - eapply Hkeep; [exact H|done..].
  - destruct (FlagSet.readAsCSV value); cbn in H; try done.
    eapply Hkeep; [exact H|done..].
  - unfold FlagSet.readAsCSV in H.
    destruct (bool_decide (value = "")) eqn:Hv.
    + apply bool_decide_eq_true in Hv as ->. cbn in H. injection H as <-.
      split; [done|]. exists []. by rewrite app_nil_r.
    + case_bool_decide; cbn in H; [|done]. injection H as <-.
      split; [done|]. exists (Split value ","%char). split; [done|].
      intros _ _ Hnil. pose proof (Split_length value ","%char) as Hl.
      by rewrite Hnil in Hl.
  - eapply Hkeep; [exact H|done..].
  - eapply Hkeep; [exact H|done..].
  - destruct (FlagSet.readAsCSV value); cbn in H; try done.
    eapply Hkeep; [exact H|done..].
Qed.

(** Values appended to [pluginFake] keep the indices in range. *)
Lemma wellIndexed_appended f g vs :
  wellIndexed f →
  pluginNameToValue g = pluginNameToValue f →
  pluginFake g = pluginFake f ++ vs → wellIndexed g.
Proof.
  intros Hf Hm Hfk name pv. rewrite Hm, Hfk, length_app. intros Hpv.
  destruct (Hf name pv Hpv). lia.
Qed.

(** An index recorded by [pluginFakeParse] is in range once a field has
    been appended. *)
Lemma wellIndexed_recorded f g name suffix isOut vs :
  wellIndexed f → vs ≠ [] →
  pluginNameToValue g
  = pluginNameToValue (pluginFakeParse name suffix isOut f) →
  pluginFake g = pluginFake f ++ vs → wellIndexed g.
Proof.
  intros Hf Hvs Hm Hfk k pv. rewrite Hm, Hfk, length_app. cbn.
  assert (0 < length vs)%nat by (destruct vs; [done|cbn; lia]).
  set (p := TrimSuffix name suffix).
  assert (OutIndex (default newPluginValue (pluginNameToValue f !! p))
            < Z.of_nat (length (pluginFake f))
          ∧ OptIndex (default newPluginValue (pluginNameToValue f !! p))
            < Z.of_nat (length (pluginFake f))) as [Ho1 Ho2].
  { destruct (pluginNameToValue f !! p) as [old|] eqn:Hold; cbn.
    - by apply (Hf p).
    - lia. }
  destruct (decide (p = k)) as [->|Hne].
  - rewrite lookup_insert_eq. intros [= <-]. destruct isOut; cbn; lia.
  - rewrite lookup_insert_ne by done. intros Hpv.
    destruct (Hf k pv Hpv). lia.
Qed.

Lemma wellIndexed_new : wellIndexed newFlagsBuilder.
Proof. intros n pv Hpv. cbn in Hpv. by rewrite lookup_empty in Hpv. Qed.

Lemma wellIndexed_pluginFlag name value f f' :
  wellIndexed f → value ≠ "" → pluginFlag name value f = Ok f' →
  wellIndexed f'.
Proof.
  intros Hf Hv. unfold pluginFlag, Normalize.
  destruct (bool_decide (name ≠ "descriptor_set_out") && HasSuffix name "_out").
  - intros (Hm & vs & Hfk & Hvs)%setFlag_directives.
    by apply (wellIndexed_recorded f f' name "_out" true vs); auto.
  - destruct (HasSuffix name "_opt").
    + intros (Hm & vs & Hfk & Hvs)%setFlag_directives.
      by apply (wellIndexed_recorded f f' name "_opt" false vs); auto.
    + intros (Hm & vs & Hfk & _)%setFlag_directives.
      by apply (wellIndexed_appended f f' vs).
Qed.

(** Every index recorded in a builder stays in range through any sequence
    of flags that are each given a value that is not empty: the index
    [pluginFakeParse] records is the position the first field of the value
    then takes. *)
Theorem pluginFlag_keeps_indices (flags : list (string * string))
    (f f' : flagsBuilder) :
  wellIndexed f → Forall (λ nv, nv.2 ≠ "") flags →
  deliver flags f = Ok f' → wellIndexed f'.
Proof.
  intros Hf Hall. revert f Hf.
  induction Hall as [|[name value] flags Hv _ IH]; intros f Hf.
  - by intros [= <-].
  - unfold deliver. cbn. intros [f1 [H1 Hrest]]%bind_Ok.
    apply (IH f1); [|done]. by apply (wellIndexed_pluginFlag name value f).
Qed.

Section NoPanic.

Context (rangeOrder : ∀ V : Type, gmap string V → list (string * V)).
Context (files : gmap string string).
Context (flagSetParse :
           string → list string → error + (flagsBuilder * list string)).

Hypothesis rangeOrder_perm :
  ∀ (V : Type) (m : gmap string V), rangeOrder V m ≡ₚ map_to_list m.

Local Abbreviation parsePlugins := (parsePluginNameToPluginInfo rangeOrder).
Local Abbreviation buildRec' := (buildRec rangeOrder files flagSetParse).
Local Abbreviation Build' := (Build rangeOrder files flagSetParse).

Lemma parsePlugins_not_Panic f infos :
  wellIndexed f → parsePlugins f infos ≠ Panic.
Proof using rangeOrder_perm.
  intros Hf. unfold parsePluginNameToPluginInfo.
  destruct (forEach _ (rangeOrder _ _) infos) eqn:E; cbn; try done.
  - apply forEach_not_Panic. intros. apply pluginPathValueStep_not_Panic.
  - intros _. eapply forEach_not_Panic; [|exact E].
    intros [n pv] s Hin. apply elem_of_rangeOrder in Hin; [|done].
    destruct (Hf n pv Hin). by apply pluginValueStep_not_Panic.
Qed.

Lemma buildRec_not_Panic fuel f args infos seen :
  (∀ p data sub rest, files !! p = Some data →
     flagSetParse p (flagFileArgs data) = inr (sub, rest) → wellIndexed sub) →
  wellIndexed f → buildRec' fuel f args infos seen ≠ Panic.
Proof using rangeOrder_perm.
  intros Hparse. revert f args infos seen.
  induction fuel as [|d IH]; intros f args infos seen Hf; [done|].
  cbn. pose proof (parsePlugins_not_Panic f infos Hf) as Hp.
  destruct (parsePlugins f infos) as [infos1| | |]; cbn; try done.
  clear Hp Hf. generalize (@nil string) as paths. revert f infos1 seen.
  induction args as [|a args IHargs]; intros f infos1 seen paths; [done|].
  cbn. destruct a as [|c p]; [done|].
  case_decide; [apply IHargs|]. case_decide; [done|].
  destruct (files !! p) as [data|] eqn:Hfile; [|done].
  destruct (flagSetParse p _) as [err|[sub subArgs]] eqn:Hsub; [done|].
  pose proof (IH sub subArgs infos1 ({[p]} ∪ seen)
                (Hparse _ _ _ _ Hfile Hsub)) as Hrec.
  destruct (buildRec' d sub subArgs infos1 _) as [[[[sp sf] si] ss]| | |];
    cbn; [apply IHargs|done..].
Qed.

(** When every index recorded in the top-level builder and in the builders
    of the argument files is in range, the resolution does not panic. *)
Theorem no_panic_when_indexed (f : flagsBuilder) (args : list string) :
  wellIndexed f →
  (∀ p data sub rest, files !! p = Some data →
     flagSetParse p (flagFileArgs data) = inr (sub, rest) → wellIndexed sub) →
  Build' f args ≠ Panic.
Proof using rangeOrder_perm.
  intros Hf Hparse. unfold Build.
  pose proof (buildRec_not_Panic (S (size files)) f args ∅ ∅ Hparse Hf)
    as Hrec.
  destruct (buildRec' (S (size files)) f args ∅ ∅)
    as [[[[paths f1] infos] seen]| | |]; cbn; try done.
  destruct (checkUnsupported f1) eqn:Hun; cbn; try done.
  - destruct (forEach checkPluginInfo _ ()) eqn:Hchk; cbn; try done.
    + by case_decide.
    + intros _. eapply forEach_not_Panic; [|exact Hchk].
      intros [n i] [] _. cbn. by repeat case_decide.
  - intros _. revert Hun. unfold checkUnsupported.
    destruct (DecodeRaw f1); repeat case_decide; done.
Qed.

End NoPanic.

(** ** Blank argument files *)

Lemma find_space_rune c s :
  isAsciiSpace c = true →
  List.find (startsWith (String c s)) spaceRunes = Some (String c "").
Proof.
  intros Hc. apply bool_decide_eq_true in Hc. apply list_elem_of_In in Hc.
  cbn in Hc.
  destruct Hc as [<-|[<-|[<-|[<-|[<-|[<-|[]]]]]]]; by destruct s.
Qed.

Lemma trimLeftRunes_blank n s :
  (String.length s ≤ n)%nat → allChars isAsciiSpace s = true →
  trimLeftRunes spaceRunes n s = "".
Proof.
  revert s. induction n as [|n IH]; intros s Hn Hs.
  - destruct s; [done|cbn in Hn; lia].
  - destruct s as [|c s]; [done|].
    cbn in Hs. apply andb_true_iff in Hs as [Hc Hs].
    cbn in Hn. specialize (IH s ltac:(lia) Hs).
    cbn [trimLeftRunes]. rewrite find_space_rune by done.
    unfold slice. cbn [String.length]. cbn [Nat.sub String.substring].
    by rewrite Nat.sub_0_r, substring_all.
Qed.

Lemma TrimSpace_blank s : allChars isAsciiSpace s = true → TrimSpace s = "".
Proof.
  intros Hs. unfold TrimSpace. by rewrite trimLeftRunes_blank.
Qed.

Lemma Split_allChars P s c :
  allChars P s = true → Forall (λ x, allChars P x = true) (Split s c).
Proof.
  induction s as [|d s IH]; cbn.
  - intros _. by constructor.
  - intros [Hd Hs]%andb_true_iff. specialize (IH Hs).
    case_decide; [by constructor|].
    destruct (Split s c) as [|h t]; cbn.
    + constructor; [|done]. cbn. by rewrite Hd.
    + apply Forall_cons in IH as [Hh Ht]. constructor; [|done].
      cbn. by rewrite Hd, Hh.
Qed.

(** An argument file that holds nothing but ASCII white space (blank
    lines, spaces, tabs, carriage returns) hands no token on to the flag
    set. *)
Theorem blank_file_no_tokens (data : string) :
  allChars isAsciiSpace data = true → flagFileArgs data = [].
Proof.
  intros Hs. unfold flagFileArgs.
  pose proof (Split_allChars _ _ (ascii_of_nat 10) Hs) as Hall.
  induction Hall as [|x l Hx _ IH]; [done|].
  cbn. rewrite TrimSpace_blank by done. cbn. apply IH.
Qed.

(** ** The options of the environment *)

Lemma Output_foldl_merge_empty f l :
  Forall (λ b, Output (fbFlags b) = "") l →
  Output (fbFlags (foldl merge f l)) = Output (fbFlags f).
Proof.
  intros Hall. revert f. induction Hall as [|g l Hg _ IH]; intros f; [done|].
  cbn. rewrite IH. cbn. rewrite Hg. by rewrite decide_False by auto.
Qed.

Lemma Output_foldl_merge_last f l pre b post :
  f :: l = pre ++ b :: post → Output (fbFlags b) ≠ "" →
  Forall (λ b', Output (fbFlags b') = "") post →
  Output (fbFlags (foldl merge f l)) = Output (fbFlags b).
Proof.
  intros Heq Hb Hpost. destruct pre as [|f' pre]; cbn in Heq.
  - injection Heq as -> ->. by apply Output_foldl_merge_empty.
  - injection Heq as -> ->. rewrite foldl_app. cbn.
    rewrite Output_foldl_merge_empty by done. cbn. by rewrite decide_True.
Qed.

Lemma IncludeImports_foldl_merge f l :
  IncludeImports (fbFlags (foldl merge f l)) = true
  ↔ Exists (λ b, IncludeImports (fbFlags b) = true) (f :: l).
Proof.
  revert f. induction l as [|g l IH]; intros f; cbn.
  - rewrite Exists_cons, Exists_nil. tauto.
  - rewrite IH, !Exists_cons. cbn.
    destruct (IncludeImports (fbFlags g)), (IncludeImports (fbFlags f));
      intuition congruence.
Qed.

Lemma withDefaults_keeps fl :
  IncludeImports (withDefaults fl) = IncludeImports fl
  ∧ IncludeSourceInfo (withDefaults fl) = IncludeSourceInfo fl
  ∧ PrintFreeFieldNumbers (withDefaults fl) = PrintFreeFieldNumbers fl
  ∧ Output (withDefaults fl) = Output fl.
Proof. unfold withDefaults. by repeat case_decide. Qed.

Section EnvironmentOptions.

Context (rangeOrder : ∀ V : Type, gmap string V → list (string * V)).
Context (files : gmap string string).
Context (flagSetParse :
           string → list string → error + (flagsBuilder * list string)).

Local Abbreviation Build' := (Build rangeOrder files flagSetParse).
Local Abbreviation chainBuilders' := (chainBuilders files flagSetParse).

(** The options of a resolved environment are those of the top-level
    builder and of the builders of the argument files, merged in the
    order the files are entered, with the defaults filled in: imports are
    included as soon as one builder asks for it, and the output location
    is the one given last along the chain, empty if none was given. *)
Theorem environment_options_merged (f : flagsBuilder) (args : list string)
    (e : env) :
  Build' f args = Ok e →
  let chain := f :: chainBuilders' (S (size files)) args in
  envFlags e
  = withDefaults (fbFlags (foldl merge f (chainBuilders' (S (size files)) args)))
  ∧ (IncludeImports (envFlags e) = true
     ↔ Exists (λ b, IncludeImports (fbFlags b) = true) chain)
  ∧ (∀ pre b post, chain = pre ++ b :: post → Output (fbFlags b) ≠ "" →
       Forall (λ b', Output (fbFlags b') = "") post →
       Output (envFlags e) = Output (fbFlags b))
  ∧ (Forall (λ b, Output (fbFlags b) = "") chain → Output (envFlags e) = "").
Proof.
  intros (paths & f1 & infos & seen & Hrec & _ & _ & _ & ->)%Build_Ok_inv.
  apply buildRec_Ok in Hrec as (_ & _ & ->). intros chain. cbn [envFlags].
  destruct (withDefaults_keeps
              (fbFlags (foldl merge f (chainBuilders' (S (size files)) args))))
    as (Hi & _ & _ & Ho).
  split; [done|]. rewrite Hi, Ho. split; [apply IncludeImports_foldl_merge|].
  split.
  - intros pre b post Heq Hb Hpost.
    by apply (Output_foldl_merge_last _ _ pre b post).
  - intros [Hf Hall]%Forall_cons. by rewrite Output_foldl_merge_empty.
Qed.

End EnvironmentOptions.

Lemma environment_options_merged_witness :
  let files : gmap string string :=
    {["a" := "--descriptor_set_out=a.bin" +:+ lf +:+ "--include_imports"
             +:+ lf +:+ "x.proto"]} in
  let top := FlagSet.setFlag "descriptor_set_out" "top.bin" newFlagsBuilder in
  let f := mkFlagsBuilder (mkFlags [] false false false "top.bin" "")
             [] "" "" false [] [] ∅ in
  let e := mkEnv (mkFlags ["."] true false false "a.bin" "gcc") ∅ ["x.proto"] in
  top = Ok f
  ∧ Build listOrder files FlagSet.flagSetParse f ["@a"] = Ok e
  ∧ envFlags e
    = withDefaults
        (fbFlags (foldl merge f
                    (chainBuilders files FlagSet.flagSetParse
                       (S (size files)) ["@a"]))).
Proof.
  intros files top f e.
  assert (Build listOrder files FlagSet.flagSetParse f ["@a"] = Ok e) as H
    by (vm_compute; reflexivity).
  split; [reflexivity|]. split; [exact H|].
  exact (proj1 (environment_options_merged listOrder files
                  FlagSet.flagSetParse f ["@a"] e H)).
Defined.

(** ** The further properties at concrete inputs *)

Lemma reverseOrder_perm (V : Type) (m : gmap string V) :
  reverseOrder V m ≡ₚ map_to_list m.
Proof. apply reverse_Permutation. Qed.

Lemma Build_order_independent_witness :
  let f := withDirectives ["a"; "b"]
             {["foo" := mkPluginValue 0 (-1); "bar" := mkPluginValue 1 (-1)]} in
  let e := mkEnv (mkFlags ["."] false false false "" "gcc")
             {["foo" := mkPluginInfo "a" "" ""; "bar" := mkPluginInfo "b" "" ""]}
             ["x.proto"] in
  deliver [("foo_out", "a"); ("bar_out", "b")] newFlagsBuilder = Ok f
  ∧ listOrder _ (pluginNameToValue f) ≠ reverseOrder _ (pluginNameToValue f)
  ∧ Build listOrder ∅ FlagSet.flagSetParse f ["x.proto"] = Ok e
  ∧ Build reverseOrder ∅ FlagSet.flagSetParse f ["x.proto"] = Ok e.
Proof.
  intros f e.
  assert (Build listOrder ∅ FlagSet.flagSetParse f ["x.proto"] = Ok e) as H
    by (vm_compute; reflexivity).
  split; [vm_compute; reflexivity|].
  split; [vm_compute; discriminate|]. split; [exact H|].
  exact (Build_order_independent listOrder reverseOrder ∅ FlagSet.flagSetParse
           listOrder_perm reverseOrder_perm f ["x.proto"] e H).
Defined.

Lemma plugin_table_along_chain_witness :
  let files : gmap string string :=
    {["a" := "--bar_out=y" +:+ lf +:+ "x.proto"]} in
  let f := withDirectives ["x"] {["foo" := mkPluginValue 0 (-1)]} in
  let e := mkEnv (mkFlags ["."] false false false "" "gcc")
             {["foo" := mkPluginInfo "x" "" ""; "bar" := mkPluginInfo "y" "" ""]}
             ["x.proto"] in
  pluginFlag "foo_out" "x" newFlagsBuilder = Ok f
  ∧ Build listOrder files FlagSet.flagSetParse f ["@a"] = Ok e
  ∧ forEach (parsePluginNameToPluginInfo listOrder)
      (f :: chainBuilders files FlagSet.flagSetParse (S (size files)) ["@a"]) ∅
    = Ok (PluginNameToPluginInfo e).
Proof.
  intros files f e.
  assert (Build listOrder files FlagSet.flagSetParse f ["@a"] = Ok e) as H
    by (vm_compute; reflexivity).
  split; [vm_compute; reflexivity|]. split; [exact H|].
  exact (plugin_table_along_chain listOrder files FlagSet.flagSetParse
           f ["@a"] e H).
Defined.

Lemma unsupported_flags_rejected_witness :
  let files : gmap string string :=
    {["a" := "--encode=Foo" +:+ lf +:+ "x.proto"]} in
  let w : walk :=
    (["x.proto"],
     merge newFlagsBuilder
       (mkFlagsBuilder (fbFlags newFlagsBuilder) [] "Foo" "" false [] [] ∅),
     ∅, {["a"]}) in
  buildRec listOrder files FlagSet.flagSetParse (S (size files))
    newFlagsBuilder ["@a"] ∅ ∅ = Ok w
  ∧ Build listOrder files FlagSet.flagSetParse newFlagsBuilder ["@a"]
    = Err EncodeNotSupportedError.
Proof.
  intros files w.
  assert (buildRec listOrder files FlagSet.flagSetParse (S (size files))
            newFlagsBuilder ["@a"] ∅ ∅ = Ok w) as H
    by (vm_compute; reflexivity).
  split; [exact H|].
  destruct (unsupported_flags_rejected listOrder files FlagSet.flagSetParse
              newFlagsBuilder ["@a"] w H) as [Henc _].
  apply Henc. right. left. vm_compute. discriminate.
Defined.

Lemma no_input_files_witness :
  let files : gmap string string := {["a" := lf +:+ "  " +:+ lf]} in
  buildRec listOrder files FlagSet.flagSetParse (S (size files))
    newFlagsBuilder ["@a"] ∅ ∅
  = Ok ([], merge newFlagsBuilder newFlagsBuilder, ∅, {["a"]})
  ∧ Build listOrder files FlagSet.flagSetParse newFlagsBuilder ["@a"]
    = Err errNoInputFiles.
Proof.
  intros files.
  assert (buildRec listOrder files FlagSet.flagSetParse (S (size files))
            newFlagsBuilder ["@a"] ∅ ∅
          = Ok ([], merge newFlagsBuilder newFlagsBuilder, ∅, {["a"]})) as H
    by (vm_compute; reflexivity).
  split; [exact H|].
  apply (no_input_files listOrder files FlagSet.flagSetParse _ _ _ _ _ _ H).
  - reflexivity.
  - reflexivity.
  - vm_compute. reflexivity.
Defined.

Lemma empty_token_rejected_witness :
  buildRec listOrder ∅ FlagSet.flagSetParse 1 newFlagsBuilder ["x.proto"] ∅ ∅
  = Ok (["x.proto"], newFlagsBuilder, ∅, ∅)
  ∧ Build listOrder ∅ FlagSet.flagSetParse newFlagsBuilder
      ["x.proto"; ""; "y.proto"]
    = Err errArgEmpty.
Proof.
  assert (buildRec listOrder ∅ FlagSet.flagSetParse 1 newFlagsBuilder
            ["x.proto"] ∅ ∅ = Ok (["x.proto"], newFlagsBuilder, ∅, ∅)) as H
    by (vm_compute; reflexivity).
  split; [exact H|].
  destruct (empty_token_rejected listOrder ∅ FlagSet.flagSetParse 1
              newFlagsBuilder ["x.proto"] ["y.proto"] ∅ ∅ _ H)
    as (_ & HBuild & _).
  apply HBuild; reflexivity.
Defined.

Lemma unreadable_file_rejected_witness :
  buildRec listOrder ∅ FlagSet.flagSetParse 1 newFlagsBuilder ["x.proto"] ∅ ∅
  = Ok (["x.proto"], newFlagsBuilder, ∅, ∅)
  ∧ Build listOrder ∅ FlagSet.flagSetParse newFlagsBuilder
      ["x.proto"; "@missing.txt"]
    = Err (ReadFileError "missing.txt").
Proof.
  assert (buildRec listOrder ∅ FlagSet.flagSetParse 1 newFlagsBuilder
            ["x.proto"] ∅ ∅ = Ok (["x.proto"], newFlagsBuilder, ∅, ∅)) as H
    by (vm_compute; reflexivity).
  split; [exact H|].
  destruct (unreadable_file_rejected listOrder ∅ FlagSet.flagSetParse 1
              newFlagsBuilder ["x.proto"] [] ∅ ∅ _ "missing.txt"
              (ReadFileError "missing.txt") H) as [_ HBuild].
  - apply not_elem_of_empty.
  - left. split; reflexivity.
  - apply HBuild; reflexivity.
Defined.

Lemma pluginFlag_keeps_indices_witness :
  let flags := [("foo_opt", "o"); ("foo_out", "x,y"); ("bar_out", "z")] in
  let f' := withDirectives ["o"; "x"; "y"; "z"]
              {["foo" := mkPluginValue 1 0; "bar" := mkPluginValue 3 (-1)]} in
  deliver flags newFlagsBuilder = Ok f' ∧ wellIndexed f'.
Proof.
  intros flags f'.
  assert (deliver flags newFlagsBuilder = Ok f') as H
    by (vm_compute; reflexivity).
  split; [exact H|].
  apply (pluginFlag_keeps_indices flags newFlagsBuilder f'); [| |exact H].
  - intros n pv Hpv. cbn in Hpv. rewrite lookup_empty in Hpv. discriminate.
  - repeat constructor; discriminate.
Defined.

Lemma no_panic_when_indexed_witness :
  let files : gmap string string :=
    {["a" := "--foo_out=x" +:+ lf +:+ "x.proto"]} in
  let f := withDirectives ["y"] {["bar" := mkPluginValue 0 (-1)]} in
  pluginFlag "bar_out" "y" newFlagsBuilder = Ok f
  ∧ Build listOrder files FlagSet.flagSetParse f ["@a"] ≠ Panic.
Proof.
  intros files f.
  assert (∀ k v, wellIndexed (withDirectives [v] {[k := mkPluginValue 0 (-1)]}))
    as Hone.
  { intros k v n pv Hpv. cbn in Hpv.
    apply lookup_singleton_Some in Hpv as [_ <-]. cbn. lia. }
  split; [vm_compute; reflexivity|].
  apply (no_panic_when_indexed listOrder files FlagSet.flagSetParse
           listOrder_perm).
  - apply Hone.
  - intros p data sub rest Hfile Hparse.
    apply lookup_singleton_Some in Hfile as [<- <-].
    assert (FlagSet.flagSetParse "a"
              (flagFileArgs ("--foo_out=x" +:+ lf +:+ "x.proto"))
            = inr (withDirectives ["x"] {["foo" := mkPluginValue 0 (-1)]},
                   ["x.proto"]))
      as Heq by (vm_compute; reflexivity).
    rewrite Heq in Hparse. injection Hparse as <- _. apply Hone.
Defined.

Lemma blank_file_no_tokens_witness :
  flagFileArgs (lf +:+ "  " +:+ String (ascii_of_nat 9) lf +:+ lf) = [].
Proof. apply blank_file_no_tokens. vm_compute. reflexivity. Defined.

(** A plugin flag given the empty value records its index and stores
    nothing behind it: the index is out of range, and resolving it panics. *)
Example index_without_value_panics :
  deliver [("foo_out", "")] newFlagsBuilder
  = Ok (withDirectives [] {["foo" := mkPluginValue 0 (-1)]})
  ∧ FlagSet.run ∅ ["--foo_out="; "a.proto"] = Panic.
Proof. split; vm_compute; reflexivity. Qed.
